(** * ParkingQueue: a shallow embedding of the circular queue of [src/app.py]

    The Python class [ParkingQueue] holds four attributes [size], [data],
    [front] and [count].  Its methods are written here in a small state
    monad with Python exceptions: a method maps the queue to a result
    (a value or a raised exception) together with the queue as it is
    afterwards, so that mutations performed before an exception are kept,
    as they would be in Python. *)

From Stdlib Require Import Arith Lia Ascii String ZArith NArith Bool List Permutation.
Import ListNotations.

(** ** Data *)

(** A parked car: the dict [{"id": str, "entry_time": datetime}]; the time
    is kept as an integer time stamp. *)
Record entry := mk_entry { id : string; entry_time : Z }.

(** The attributes of a [ParkingQueue] object.  A slot of [data] is
    [None] or a car. *)
Record ParkingQueue := mk_queue {
  size : nat;
  data : list (option entry);
  front : nat;
  count : nat
}.

(** The Python exceptions the methods can raise. *)
Inductive exn := OverflowError | IndexError | ValueError | ZeroDivisionError.

Inductive result (A : Type) := Ok (a : A) | Err (e : exn).
Arguments Ok {A} a.
Arguments Err {A} e.

(** ** The state and exception monad *)

Definition M (A : Type) := ParkingQueue -> result A * ParkingQueue.

Definition ret {A} (a : A) : M A := fun s => (Ok a, s).
Definition raise {A} (e : exn) : M A := fun s => (Err e, s).
Definition bind {A B} (m : M A) (k : A -> M B) : M B := fun s =>
  match m s with
  | (Ok a, s') => k a s'
  | (Err e, s') => (Err e, s')
  end.

Notation "x <- m ;; k" := (bind m (fun x => k))
  (at level 61, m at next level, right associativity).

Definition get : M ParkingQueue := fun s => (Ok s, s).
Definition modify (f : ParkingQueue -> ParkingQueue) : M unit :=
  fun s => (Ok tt, f s).

Definition set_data (d : list (option entry)) (s : ParkingQueue) :=
  mk_queue (size s) d (front s) (count s).
Definition set_front (f : nat) (s : ParkingQueue) :=
  mk_queue (size s) (data s) f (count s).
Definition set_count (c : nat) (s : ParkingQueue) :=
  mk_queue (size s) (data s) (front s) c.

(** ** Python primitives *)

(** [a % b] on non-negative integers. *)
Definition py_mod (a b : nat) : M nat :=
  if b =? 0 then raise ZeroDivisionError else ret (a mod b).

(** [l[i]] for a non-negative index. *)
Definition py_getitem (l : list (option entry)) (i : nat) : M (option entry) :=
  match nth_error l i with
  | Some v => ret v
  | None => raise IndexError
  end.

Fixpoint list_set {A} (l : list A) (i : nat) (v : A) : list A :=
  match l, i with
  | [], _ => []
  | _ :: xs, 0 => v :: xs
  | x :: xs, S j => x :: list_set xs j v
  end.

(** [l[i] = v] for a non-negative index: out of range it raises. *)
Definition py_setitem (l : list (option entry)) (i : nat) (v : option entry)
  : M (list (option entry)) :=
  if i <? length l then ret (list_set l i v) else raise IndexError.

(** Sequential [for] loop over a list, collecting results. *)
Fixpoint map_m {A B} (f : A -> M B) (l : list A) : M (list B) :=
  match l with
  | [] => ret []
  | x :: xs => y <- f x;; ys <- map_m f xs;; ret (y :: ys)
  end.

(** ** The class [ParkingQueue] *)

(** [__init__(self, size=8)]: the constructor either raises or builds the
    object. *)
Definition ParkingQueue_init (size : Z) : result ParkingQueue :=
  if (size <? 1)%Z then Err ValueError
  else Ok (mk_queue (Z.to_nat size) (repeat None (Z.to_nat size)) 0 0).

Definition is_full : M bool := s <- get;; ret (count s =? size s).

Definition is_empty : M bool := s <- get;; ret (count s =? 0).

Definition enqueue (value : entry) : M nat :=
  full <- is_full;;
  if full then raise OverflowError else
  s <- get;;
  idx <- py_mod (front s + count s) (size s);;
  d <- py_setitem (data s) idx (Some value);;
  _ <- modify (set_data d);;
  _ <- modify (fun s => set_count (count s + 1) s);;
  ret idx.

Definition dequeue : M (option entry) :=
  empty <- is_empty;;
  if empty then raise IndexError else
  s <- get;;
  val <- py_getitem (data s) (front s);;
  d <- py_setitem (data s) (front s) None;;
  _ <- modify (set_data d);;
  f <- py_mod (front s + 1) (size s);;
  _ <- modify (set_front f);;
  _ <- modify (fun s => set_count (count s - 1) s);;
  ret val.

Definition peek_front : M (option entry) :=
  empty <- is_empty;;
  if empty then raise IndexError else
  s <- get;;
  py_getitem (data s) (front s).

Definition clear : M unit :=
  modify (fun s => mk_queue (size s) (repeat None (size s)) 0 0).

(** [[self.data[(self.front + i) % self.size] for i in range(self.count)]] *)
Definition linearize : M (list (option entry)) :=
  s <- get;;
  map_m (fun i => j <- py_mod (front s + i) (size s);; py_getitem (data s) j)
        (seq 0 (count s)).

(** [for it in items: if it is not None: self.enqueue(it)] *)
Fixpoint enqueue_each (items : list (option entry)) : M unit :=
  match items with
  | [] => ret tt
  | it :: rest =>
      _ <- match it with
           | Some v => _ <- enqueue v;; ret tt
           | None => ret tt
           end;;
      enqueue_each rest
  end.

Definition set_size (new_size : Z) : M unit :=
  if (new_size <? 1)%Z then raise ValueError else
  items <- linearize;;
  _ <- modify (fun _ => mk_queue (Z.to_nat new_size)
                          (repeat None (Z.to_nat new_size)) 0 0);;
  enqueue_each (firstn (Z.to_nat new_size) items).

(** [for i in range(self.size): car = self.data[i]; ...] over the indices
    still to be visited. *)
Fixpoint find_from (car_id : string) (is : list nat) : M (option nat) :=
  match is with
  | [] => ret None
  | i :: rest =>
      s <- get;;
      car <- py_getitem (data s) i;;
      match car with
      | Some c => if String.eqb (id c) car_id then ret (Some i)
                  else find_from car_id rest
      | None => find_from car_id rest
      end
  end.

Definition find_index_by_car_id (car_id : string) : M (option nat) :=
  s <- get;; find_from car_id (seq 0 (size s)).

(** One iteration of the scan of [remove_by_car_id]: the accumulator is
    [(new_items, removed)]. *)
Definition scan_step (car_id : string)
    (acc : list (option entry) * option entry) (it : option entry) :=
  let '(new_items, removed) := acc in
  match it, removed with
  | Some c, None =>
      if String.eqb (id c) car_id then (new_items, Some c)
      else (new_items ++ [it], removed)
  | _, _ => (new_items ++ [it], removed)
  end.

Definition remove_by_car_id (car_id : string) : M (option entry) :=
  empty <- is_empty;;
  if empty then ret None else
  items <- linearize;;
  let '(new_items, removed) := fold_left (scan_step car_id) items ([], None) in
  match removed with
  | None => ret None
  | Some r =>
      _ <- modify (fun s => mk_queue (size s) (repeat None (size s)) 0 0);;
      _ <- enqueue_each new_items;;
      ret (Some r)
  end.

(** ** A call of one method, with its return value *)

Inductive value :=
  | VUnit | VBool (b : bool) | VNat (n : nat)
  | VSlot (v : option entry) | VIndex (i : option nat).

Inductive op :=
  | OEnqueue (e : entry) | ODequeue | OPeekFront | OClear
  | OSetSize (n : Z) | OFindIndex (k : string) | ORemove (k : string)
  | OIsFull | OIsEmpty.

Definition fmap {A} (f : A -> value) (m : M A) : M value :=
  a <- m;; ret (f a).

Definition run_op (o : op) : M value :=
  match o with
  | OEnqueue e => fmap VNat (enqueue e)
  | ODequeue => fmap VSlot dequeue
  | OPeekFront => fmap VSlot peek_front
  | OClear => fmap (fun _ => VUnit) clear
  | OSetSize n => fmap (fun _ => VUnit) (set_size n)
  | OFindIndex k => fmap VIndex (find_index_by_car_id k)
  | ORemove k => fmap VSlot (remove_by_car_id k)
  | OIsFull => fmap VBool is_full
  | OIsEmpty => fmap VBool is_empty
  end.

(** A sequence of calls: the first exception ends it. *)
Fixpoint run_ops (l : list op) : M unit :=
  match l with
  | [] => ret tt
  | o :: rest => _ <- run_op o;; run_ops rest
  end.

(** ** The abstraction: logical order and ring layout *)

(** The attribute invariants of a reachable queue. *)
Definition wf (s : ParkingQueue) : Prop :=
  0 < size s /\ length (data s) = size s /\ front s < size s /\ count s <= size s.

(** The slot at logical position [i]. *)
Definition slot (s : ParkingQueue) (i : nat) : option entry :=
  nth ((front s + i) mod size s) (data s) None.

(** The occupied slots in logical (FIFO) order. *)
Definition items (s : ParkingQueue) : list (option entry) :=
  map (slot s) (seq 0 (count s)).

(** All slots walked from [front]. *)
Definition walk (s : ParkingQueue) : list (option entry) :=
  map (slot s) (seq 0 (size s)).

(** Walking from [front] meets [count] occupied slots, then
    [size - count] empty ones. *)
Definition ring_layout (s : ParkingQueue) : Prop :=
  wf s /\
  map (fun o : option entry => if o then true else false) (walk s)
    = repeat true (count s) ++ repeat false (size s - count s).

Definition is_enqueue (o : op) : nat :=
  match o with OEnqueue _ => 1 | _ => 0 end.
Definition is_dequeue (o : op) : nat :=
  match o with ODequeue => 1 | _ => 0 end.
Definition enq_or_deq (o : op) : bool :=
  match o with OEnqueue _ | ODequeue => true | _ => false end.

(** ** Auxiliary definitions for the proofs *)

(** The queue after an [enqueue] that does not raise. *)
Definition enqueue_post (value : entry) (s : ParkingQueue) : ParkingQueue :=
  mk_queue (size s)
    (list_set (data s) ((front s + count s) mod size s) (Some value))
    (front s) (count s + 1).

(** The queue after a [dequeue] that does not raise. *)
Definition dequeue_post (s : ParkingQueue) : ParkingQueue :=
  mk_queue (size s) (list_set (data s) (front s) None)
    ((front s + 1) mod size s) (count s - 1).

(** The queue [enqueue_each] leaves behind when started on a fresh buffer:
    the cars at physical indices [0 .. length xs - 1], [front = 0]. *)
Definition packed (n : nat) (xs : list entry) : ParkingQueue :=
  mk_queue n (map Some xs ++ repeat None (n - length xs)) 0 (length xs).

Definition occupied (o : option entry) : bool := if o then true else false.

(** Physical slot [j] holds a car with id [k]. *)
Definition holds_car (s : ParkingQueue) (k : string) (j : nat) : Prop :=
  exists c, nth j (data s) None = Some c /\ id c = k.

Definition first_found (s : ParkingQueue) (k : string) (a len : nat)
    (r : option nat) : Prop :=
  match r with
  | Some i => a <= i < a + len /\ holds_car s k i /\
              forall j, a <= j < i -> ~ holds_car s k j
  | None => forall j, a <= j < a + len -> ~ holds_car s k j
  end.

(** The exception a failing call raises, and when. *)
Definition error_case (o : op) (s : ParkingQueue) (e : exn) : Prop :=
  match o with
  | OEnqueue _ => e = OverflowError /\ count s = size s
  | ODequeue | OPeekFront => e = IndexError /\ count s = 0
  | OSetSize n => e = ValueError /\ (n < 1)%Z
  | _ => False
  end.

Definition n_enqueues (l : list op) : nat := list_sum (map is_enqueue l).
Definition n_dequeues (l : list op) : nat := list_sum (map is_dequeue l).

(** [for e in es: q.enqueue(e)] *)
Fixpoint enqueue_all (es : list entry) : M unit :=
  match es with
  | [] => ret tt
  | e :: rest => _ <- enqueue e;; enqueue_all rest
  end.

(** [[q.dequeue() for _ in range(n)]] *)
Fixpoint dequeue_n (n : nat) : M (list (option entry)) :=
  match n with
  | 0 => ret []
  | S n => v <- dequeue;; vs <- dequeue_n n;; ret (v :: vs)
  end.

(** Where [front] is after the call [o] returned [r]. *)
Definition front_after (o : op) (s : ParkingQueue) (r : result value)
    (s' : ParkingQueue) : Prop :=
  match o with
  | ODequeue => front s' = if count s =? 0 then front s else (front s + 1) mod size s
  | OClear => front s' = 0
  | OSetSize n => front s' = if (n <? 1)%Z then front s else 0
  | ORemove _ => front s' = match r with Ok (VSlot (Some _)) => 0 | _ => front s end
  | _ => front s' = front s
  end.

(** ** Sample data *)

Definition car_A := mk_entry "A" 0.
Definition car_B := mk_entry "B" 1.
Definition car_C := mk_entry "C" 2.
Definition car_D := mk_entry "D" 3.
Definition car_B' := mk_entry "B" 4.

(** A queue of size 3 whose front is at physical index 1 and which holds
    [B], then [C]. *)
Definition sample_queue := mk_queue 3 [None; Some car_B; Some car_C] 1 2.

(** The queue [ParkingQueue(n)] builds. *)
Definition fresh_queue (n : nat) := mk_queue n (repeat None n) 0 0.

(** * The application layer: [ParkingApp] *)

(** ** Display: [update_dashboard] and [draw_slots] *)

(** The values [update_dashboard] writes on its cards; [None] is the
    text "-". *)
Record dashboard := mk_dashboard {
  total_slots : nat;
  occupied_slots : nat;
  free_slots : Z;
  front_label : option nat;
  rear_label : option nat
}.

Definition update_dashboard : M dashboard :=
  s <- get;;
  empty <- is_empty;;
  rear <- (if empty then ret None
           else r <- py_mod (front s + count s - 1) (size s);; ret (Some r));;
  ret (mk_dashboard (size s) (count s) (Z.of_nat (size s) - Z.of_nat (count s))
         (if empty then None else Some (front s)) rear).

(** What [draw_slots] draws for physical slot [i]: the fill (occupied or
    free), the dashed ring colour around the slot of the last action, the
    car id written in the slot, and the "F"/"R" marker above it.  Canvas
    coordinates are left out. *)
Record slot_view := mk_view {
  occupied_view : bool;
  highlight : option string;
  label : string;
  marker : string
}.

Definition marker_text (s : ParkingQueue) (n i : nat) : M string :=
  if 0 <? count s then
    real_front <- py_mod (front s) n;;
    tail_idx <- py_mod (front s + count s - 1) n;;
    let m := if i =? real_front then "F"%string else ""%string in
    ret (if i =? tail_idx
         then ((if String.eqb m "" then m else (m ++ "/")%string) ++ "R")%string
         else m)
  else ret ""%string.

Definition highlight_colour (last_type : option string) : string :=
  match last_type with
  | Some t => if String.eqb t "dequeue" || String.eqb t "remove"
              then "#ff7675" else "#00b894"
  | None => "#00b894"
  end.

Definition draw_slot (last_index : option nat) (last_type : option string)
    (n i : nat) : M slot_view :=
  s <- get;;
  val <- py_getitem (data s) i;;
  let hl := match last_index with
            | Some j => if i =? j then Some (highlight_colour last_type) else None
            | None => None
            end in
  mk <- marker_text s n i;;
  ret (mk_view (occupied val) hl
         (match val with Some c => id c | None => ""%string end) mk).

Definition draw_slots (last_index : option nat) (last_type : option string)
  : M (list slot_view) :=
  s <- get;;
  let n := size s in
  if n <=? 0 then ret []
  else map_m (draw_slot last_index last_type n) (seq 0 n).

(** ** Python strings *)

(** [str.isspace] on the code points 0 .. 255 (a character of a Rocq
    string read as Latin-1). *)
Definition py_isspace (c : ascii) : bool :=
  let n := nat_of_ascii c in
  ((9 <=? n) && (n <=? 13)) || ((28 <=? n) && (n <=? 32)) || (n =? 133) || (n =? 160).

Fixpoint lstrip_list (l : list ascii) : list ascii :=
  match l with
  | [] => []
  | c :: rest => if py_isspace c then lstrip_list rest else l
  end.

(** [str.strip()] *)
Definition py_strip (t : string) : string :=
  string_of_list_ascii (rev (lstrip_list (rev (lstrip_list (list_ascii_of_string t))))).

Fixpoint decimal_aux (fuel : nat) (n : N) (acc : string) : string :=
  match fuel with
  | O => acc
  | S f =>
      let acc' := String (ascii_of_N (48 + n mod 10)) acc in
      if (n <? 10)%N then acc' else decimal_aux f (n / 10) acc'
  end.

Definition decimal (n : N) : string := decimal_aux (S (N.size_nat n)) n "".

(** [str(z)] for an [int]. *)
Definition py_str_int (z : Z) : string :=
  if (z <? 0)%Z then ("-" ++ decimal (Z.to_N (- z)))%string
  else decimal (Z.to_N z).

(** ** The window's state and event handlers *)

(** The attributes of [ParkingApp] the handlers read and write; the Tk
    widgets, the status line text and the dialog bodies are display only
    and are left out. *)
Record ParkingApp := mk_app {
  queue : ParkingQueue;
  auto_car_id : Z;
  last_action_index : option nat;
  last_action_type : option string
}.

(** [ParkingApp.__init__]: [ParkingQueue(size=8)], [auto_car_id = 1]. *)
Definition app_init : ParkingApp := mk_app (fresh_queue 8) 1 None None.

(** The message boxes a handler opens, by kind and title. *)
Inductive dialog :=
  | ShowError (title : string)
  | ShowWarning (title : string)
  | ShowInfo (title : string)
  | AskYesNo (title : string).

(** An exception no [except] clause of the handler catches: Tk reports
    it and the window keeps the state reached so far. *)
Inductive ui_exn := Raised (e : exn) | TypeError.

Record ui_out := mk_out {
  app : ParkingApp;
  dialogs : list dialog;
  uncaught : option ui_exn
}.

Definition with_queue (q : ParkingQueue) (a : ParkingApp) : ParkingApp :=
  mk_app q (auto_car_id a) (last_action_index a) (last_action_type a).

(** [on_enqueue]: [text] is the content of the car id entry and [now] the
    time stamp of [datetime.now()]. *)
Definition on_enqueue (text : string) (now : Z) (a : ParkingApp) : ui_out :=
  let car_id := py_strip text in
  let '(car_id, a) :=
    if String.eqb car_id ""
    then (("Car" ++ py_str_int (auto_car_id a))%string,
          mk_app (queue a) (auto_car_id a + 1) (last_action_index a)
                 (last_action_type a))
    else (car_id, a) in
  match enqueue (mk_entry car_id now) (queue a) with
  | (Ok idx, q) =>
      mk_out (mk_app q (auto_car_id a) (Some idx) (Some "enqueue"%string)) [] None
  | (Err OverflowError, q) =>
      mk_out (with_queue q a) [ShowWarning "Parking Full"] None
  | (Err e, q) => mk_out (with_queue q a) [] (Some (Raised e))
  end.

(** [on_dequeue]: [car["entry_time"]] on [None] raises [TypeError]. *)
Definition on_dequeue (a : ParkingApp) : ui_out :=
  match dequeue (queue a) with
  | (Ok (Some car), q) =>
      mk_out (mk_app q (auto_car_id a) (Some (front q)) (Some "dequeue"%string))
             [ShowInfo "Car Left"] None
  | (Ok None, q) => mk_out (with_queue q a) [] (Some TypeError)
  | (Err IndexError, q) =>
      mk_out (with_queue q a) [ShowWarning "Parking Empty"] None
  | (Err e, q) => mk_out (with_queue q a) [] (Some (Raised e))
  end.

Definition on_peek_front (a : ParkingApp) : ui_out :=
  match peek_front (queue a) with
  | (Ok (Some car), q) =>
      mk_out (mk_app q (auto_car_id a) (Some (front q)) (Some "search"%string))
             [ShowInfo "Peek Front"] None
  | (Ok None, q) => mk_out (with_queue q a) [] (Some TypeError)
  | (Err IndexError, q) =>
      mk_out (with_queue q a) [ShowInfo "Parking Empty"] None
  | (Err e, q) => mk_out (with_queue q a) [] (Some (Raised e))
  end.

Definition on_search_car (text : string) (a : ParkingApp) : ui_out :=
  let car_id := py_strip text in
  if String.eqb car_id "" then mk_out a [ShowWarning "Car ID missing"] None else
  match find_index_by_car_id car_id (queue a) with
  | (Ok None, q) =>
      mk_out (mk_app q (auto_car_id a) None (last_action_type a))
             [ShowInfo "Search Result"] None
  | (Ok (Some i), q) =>
      mk_out (mk_app q (auto_car_id a) (Some i) (Some "search"%string))
             [ShowInfo "Search Result"] None
  | (Err e, q) => mk_out (with_queue q a) [] (Some (Raised e))
  end.

Definition on_remove_car (text : string) (a : ParkingApp) : ui_out :=
  let car_id := py_strip text in
  if String.eqb car_id "" then mk_out a [ShowWarning "Car ID missing"] None else
  match remove_by_car_id car_id (queue a) with
  | (Ok None, q) =>
      mk_out (mk_app q (auto_car_id a) None (last_action_type a))
             [ShowInfo "Remove Result"] None
  | (Ok (Some r), q) =>
      mk_out (mk_app q (auto_car_id a)
                (if count q =? 0 then None else Some (front q))
                (Some "remove"%string))
             [ShowInfo "Car Removed"] None
  | (Err e, q) => mk_out (with_queue q a) [] (Some (Raised e))
  end.

(** [on_set_size]: [v] is what [int(self.size_var.get())] gives, [None]
    when it raises; every exception is caught. *)
Definition on_set_size (v : option Z) (a : ParkingApp) : ui_out :=
  match v with
  | None => mk_out a [ShowError "Invalid size"] None
  | Some n =>
      if (n <? 1)%Z then mk_out a [ShowError "Invalid size"] None else
      match set_size n (queue a) with
      | (Ok _, q) => mk_out (mk_app q (auto_car_id a) None (last_action_type a)) [] None
      | (Err _, q) => mk_out (with_queue q a) [ShowError "Error"] None
      end
  end.

(** [on_clear]: [yes] is the answer to the confirmation. *)
Definition on_clear (yes : bool) (a : ParkingApp) : ui_out :=
  if yes
  then mk_out (mk_app (snd (clear (queue a))) (auto_car_id a) None
                      (last_action_type a)) [AskYesNo "Clear All"] None
  else mk_out a [AskYesNo "Clear All"] None.

(** ** Auxiliary definitions for the application proofs *)

(** The marker [draw_slots] computes for slot [i] of a queue with
    [size > 0]. *)
Definition marker_of (s : ParkingQueue) (i : nat) : string :=
  if 0 <? count s then
    let m := if i =? front s mod size s then "F"%string else ""%string in
    if i =? (front s + count s - 1) mod size s
    then ((if String.eqb m "" then m else (m ++ "/")%string) ++ "R")%string
    else m
  else ""%string.

Definition slot_view_of (last_index : option nat) (last_type : option string)
    (s : ParkingQueue) (i : nat) : slot_view :=
  let val := nth i (data s) None in
  mk_view (occupied val)
    (match last_index with
     | Some j => if i =? j then Some (highlight_colour last_type) else None
     | None => None
     end)
    (match val with Some c => id c | None => ""%string end)
    (marker_of s i).

(** A user action on the window. *)
Inductive event :=
  | EvEnqueue (text : string) (now : Z)
  | EvDequeue
  | EvPeekFront
  | EvSearch (text : string)
  | EvRemove (text : string)
  | EvSetSize (v : option Z)
  | EvClear (yes : bool).

Definition handle (ev : event) (a : ParkingApp) : ui_out :=
  match ev with
  | EvEnqueue text now => on_enqueue text now a
  | EvDequeue => on_dequeue a
  | EvPeekFront => on_peek_front a
  | EvSearch text => on_search_car text a
  | EvRemove text => on_remove_car text a
  | EvSetSize v => on_set_size v a
  | EvClear yes => on_clear yes a
  end.

(** The id [on_enqueue] gives the new car. *)
Definition chosen_id (text : string) (a : ParkingApp) : string :=
  if String.eqb (py_strip text) ""
  then ("Car" ++ py_str_int (auto_car_id a))%string
  else py_strip text.

(** A run of user actions handled one after another by the Tk main loop;
    an exception a handler leaves uncaught is reported and the loop goes
    on with the state reached.  The second component lists those
    exceptions. *)
Fixpoint run_events (evs : list event) (a : ParkingApp) : ParkingApp * list ui_exn :=
  match evs with
  | [] => (a, [])
  | ev :: rest =>
      let o := handle ev a in
      let '(a', errs) := run_events rest (app o) in
      (a', match uncaught o with Some e => e :: errs | None => errs end)
  end.

(** The number of enqueue actions with a blank car id entry. *)
Definition blank_enqueues (evs : list event) : nat :=
  length (filter (fun ev => match ev with
                            | EvEnqueue text _ => String.eqb (py_strip text) ""
                            | _ => false
                            end) evs).

(** The slot [draw_slots] marks "R". *)
Definition rear_slot (s : ParkingQueue) : nat := (front s + count s - 1) mod size s.

(** A default for [nth] on the drawn slots. *)
Definition blank_view := mk_view false None ""%string ""%string.

(** * Lemmas *)

(** ** Lists and modular indices *)

Lemma length_list_set {A} (l : list A) i v :
  length (list_set l i v) = length l.
Proof.
  revert i; induction l as [|x l IH]; intros [|i]; simpl; auto.
Qed.

Lemma nth_list_set_eq {A} (l : list A) i v d :
  i < length l -> nth i (list_set l i v) d = v.
Proof.
  revert i; induction l as [|x l IH]; intros [|i] Hi; simpl in *; try lia; auto.
  apply IH; lia.
Qed.

Lemma nth_list_set_neq {A} (l : list A) i j v d :
  j <> i -> nth j (list_set l i v) d = nth j l d.
Proof.
  revert i j; induction l as [|x l IH]; intros [|i] [|j] Hij; simpl; auto;
    try congruence.
Qed.

Lemma list_set_app_len {A} (l1 l2 : list A) v :
  list_set (l1 ++ l2) (length l1) v = l1 ++ list_set l2 0 v.
Proof.
  induction l1 as [|x l1 IH]; simpl; [reflexivity | now rewrite IH].
Qed.

Lemma map_nth_seq_length {A} (l : list A) d :
  map (fun i => nth i l d) (seq 0 (length l)) = l.
Proof.
  induction l as [|x l IH]; [reflexivity|].
  simpl; rewrite <- seq_shift, map_map; simpl; now rewrite IH.
Qed.

Lemma In_repeat_eq {A} (x a : A) n : In x (repeat a n) -> x = a.
Proof. intros H; now apply repeat_spec in H. Qed.

Lemma nth_repeat_app (c n i : nat) :
  c <= n -> i < n ->
  nth i (repeat true c ++ repeat false (n - c)) false = (i <? c).
Proof.
  intros Hc Hi.
  destruct (Nat.ltb_spec i c) as [Hlt|Hge].
  - rewrite app_nth1 by (rewrite repeat_length; lia).
    apply In_repeat_eq with (n := c), nth_In; rewrite repeat_length; lia.
  - rewrite app_nth2 by (rewrite repeat_length; lia).
    rewrite repeat_length.
    apply In_repeat_eq with (n := n - c), nth_In; rewrite repeat_length; lia.
Qed.

(** [i |-> (f + i) mod n] is injective on [0 .. n-1]. *)
Lemma mod_add_inj f a b n :
  a < n -> b < n -> (f + a) mod n = (f + b) mod n -> a = b.
Proof.
  intros Ha Hb Heq.
  assert (Hn : n <> 0) by lia.
  pose proof (Nat.div_mod_eq (f + a) n) as Ea.
  pose proof (Nat.div_mod_eq (f + b) n) as Eb.
  rewrite Heq in Ea.
  destruct (Nat.lt_total ((f + a) / n) ((f + b) / n)) as [H|[H|H]]; nia.
Qed.

Lemma mod_front f n : f < n -> (f + 0) mod n = f.
Proof. intros; rewrite Nat.add_0_r; now apply Nat.mod_small. Qed.

Lemma mod_succ_front f n i :
  n <> 0 -> ((f + 1) mod n + i) mod n = (f + S i) mod n.
Proof.
  intros Hn; rewrite Nat.Div0.add_mod_idemp_l; f_equal; lia.
Qed.

(** ** Monad *)

Lemma map_m_pure {A B} (f : A -> M B) (g : A -> B) (l : list A) s :
  (forall x, In x l -> f x s = (Ok (g x), s)) ->
  map_m f l s = (Ok (map g l), s).
Proof.
  induction l as [|x l IH]; intros Hf; simpl; [reflexivity|].
  unfold bind at 1; rewrite Hf by (left; reflexivity).
  unfold bind; rewrite IH by (intros; apply Hf; right; assumption).
  reflexivity.
Qed.

Lemma linearize_ok s : wf s -> linearize s = (Ok (items s), s).
Proof.
  intros (Hsz & Hlen & Hf & Hc).
  unfold linearize, bind, get, items.
  apply map_m_pure; intros i _.
  unfold py_mod, bind.
  destruct (Nat.eqb_spec (size s) 0) as [|_]; [lia|].
  unfold ret, py_getitem.
  destruct (nth_error (data s) ((front s + i) mod size s)) eqn:E.
  - unfold slot; rewrite (nth_error_nth _ _ _ E); reflexivity.
  - apply nth_error_None in E.
    pose proof (Nat.mod_upper_bound (front s + i) (size s)); lia.
Qed.

Lemma bind_ok {A B} (m : M A) (k : A -> M B) s a s' :
  m s = (Ok a, s') -> bind m k s = k a s'.
Proof. intros H; unfold bind; now rewrite H. Qed.

Lemma is_empty_val s : is_empty s = (Ok (count s =? 0), s).
Proof. reflexivity. Qed.

Lemma is_full_val s : is_full s = (Ok (count s =? size s), s).
Proof. reflexivity. Qed.

(** ** The basic operations *)

Lemma enqueue_full value s :
  count s = size s -> enqueue value s = (Err OverflowError, s).
Proof.
  intros H; unfold enqueue, is_full, bind, get, ret.
  now rewrite H, Nat.eqb_refl.
Qed.

Lemma enqueue_ok value s :
  wf s -> count s < size s ->
  enqueue value s = (Ok ((front s + count s) mod size s), enqueue_post value s).
Proof.
  intros (Hsz & Hlen & Hf & Hc) Hlt.
  unfold enqueue, is_full, bind, get, ret.
  destruct (Nat.eqb_spec (count s) (size s)) as [|_]; [lia|].
  unfold py_mod.
  destruct (Nat.eqb_spec (size s) 0) as [|_]; [lia|].
  unfold py_setitem, ret.
  pose proof (Nat.mod_upper_bound (front s + count s) (size s)) as Hb.
  destruct (Nat.ltb_spec ((front s + count s) mod size s) (length (data s)))
    as [_|]; [|lia].
  reflexivity.
Qed.

Lemma dequeue_empty s : count s = 0 -> dequeue s = (Err IndexError, s).
Proof. intros H; unfold dequeue, is_empty, bind, get, ret; now rewrite H. Qed.

Lemma dequeue_ok s :
  wf s -> 0 < count s ->
  dequeue s = (Ok (nth (front s) (data s) None), dequeue_post s).
Proof.
  intros (Hsz & Hlen & Hf & Hc) Hpos.
  unfold dequeue, is_empty, bind, get, ret.
  destruct (Nat.eqb_spec (count s) 0) as [|_]; [lia|].
  unfold py_getitem.
  destruct (nth_error (data s) (front s)) as [v|] eqn:E;
    [|apply nth_error_None in E; lia].
  rewrite (nth_error_nth _ _ _ E).
  unfold ret, py_setitem.
  destruct (Nat.ltb_spec (front s) (length (data s))) as [_|]; [|lia].
  unfold ret, py_mod.
  destruct (Nat.eqb_spec (size s) 0) as [|_]; [lia|].
  reflexivity.
Qed.

Lemma peek_front_empty s : count s = 0 -> peek_front s = (Err IndexError, s).
Proof. intros H; unfold peek_front, is_empty, bind, get, ret; now rewrite H. Qed.

Lemma peek_front_ok s :
  wf s -> 0 < count s -> peek_front s = (Ok (nth (front s) (data s) None), s).
Proof.
  intros (Hsz & Hlen & Hf & Hc) Hpos.
  unfold peek_front, is_empty, bind, get, ret.
  destruct (Nat.eqb_spec (count s) 0) as [|_]; [lia|].
  unfold py_getitem.
  destruct (nth_error (data s) (front s)) as [v|] eqn:E;
    [|apply nth_error_None in E; lia].
  now rewrite (nth_error_nth _ _ _ E).
Qed.

Lemma wf_enqueue_post value s :
  wf s -> count s < size s -> wf (enqueue_post value s).
Proof.
  intros (Hsz & Hlen & Hf & Hc) Hlt; unfold wf, enqueue_post; simpl.
  rewrite length_list_set; lia.
Qed.

Lemma wf_dequeue_post s : wf s -> 0 < count s -> wf (dequeue_post s).
Proof.
  intros (Hsz & Hlen & Hf & Hc) Hpos; unfold wf, dequeue_post; simpl.
  rewrite length_list_set.
  pose proof (Nat.mod_upper_bound (front s + 1) (size s)); lia.
Qed.

(** Logical order after [enqueue]: the new car is appended. *)
Lemma items_enqueue_post value s :
  wf s -> count s < size s ->
  items (enqueue_post value s) = items s ++ [Some value].
Proof.
  intros (Hsz & Hlen & Hf & Hc) Hlt.
  unfold items, enqueue_post, slot; simpl.
  rewrite Nat.add_1_r, seq_S, map_app; simpl.
  pose proof (Nat.mod_upper_bound (front s + count s) (size s)) as Hb.
  f_equal.
  - apply map_ext_in; intros i Hi; apply in_seq in Hi.
    apply nth_list_set_neq; intros E; apply mod_add_inj in E; lia.
  - f_equal; apply nth_list_set_eq; lia.
Qed.

(** Logical order after [dequeue]: the head is dropped. *)
Lemma items_dequeue_post s :
  wf s -> 0 < count s ->
  items s = nth (front s) (data s) None :: items (dequeue_post s).
Proof.
  intros (Hsz & Hlen & Hf & Hc) Hpos.
  unfold items, dequeue_post, slot; simpl.
  destruct (count s) as [|c] eqn:Ec; [lia|].
  replace (S c - 1) with c by lia.
  simpl; rewrite mod_front by exact Hf; f_equal.
  rewrite <- seq_shift, map_map.
  apply map_ext_in; intros i Hi; apply in_seq in Hi.
  rewrite mod_succ_front by lia.
  rewrite nth_list_set_neq; [reflexivity|].
  intros E; rewrite <- (mod_front (front s) (size s)) in E at 2 by exact Hf.
  apply mod_add_inj in E; lia.
Qed.

(** ** Rebuilding from a linear list *)

Lemma wf_packed n xs : 0 < n -> length xs <= n -> wf (packed n xs).
Proof.
  intros Hn Hx; unfold wf, packed; simpl.
  rewrite length_app, length_map, repeat_length; lia.
Qed.

Lemma packed_nil n : packed n [] = mk_queue n (repeat None n) 0 0.
Proof. unfold packed; simpl; now rewrite Nat.sub_0_r. Qed.

Lemma enqueue_packed n xs y :
  0 < n -> length xs < n ->
  enqueue y (packed n xs) = (Ok (length xs), packed n (xs ++ [y])).
Proof.
  intros Hn Hx.
  rewrite enqueue_ok by (apply wf_packed || (unfold packed; simpl); lia).
  unfold enqueue_post, packed; simpl.
  rewrite Nat.mod_small by lia.
  f_equal; f_equal.
  - rewrite <- (length_map Some xs) at 2.
    rewrite list_set_app_len.
    rewrite length_app, map_app, <- app_assoc; simpl.
    destruct (n - length xs) as [|k] eqn:E; [lia|]; simpl.
    f_equal; f_equal; f_equal; lia.
  - rewrite length_app; simpl; lia.
Qed.

Lemma enqueue_each_packed n ys xs :
  0 < n -> length xs + length ys <= n ->
  enqueue_each (map Some ys) (packed n xs) = (Ok tt, packed n (xs ++ ys)).
Proof.
  revert xs; induction ys as [|y ys IH]; intros xs Hn Hle.
  - simpl; now rewrite app_nil_r.
  - simpl in Hle |- *; unfold bind at 1.
    unfold bind at 1; rewrite enqueue_packed by lia.
    unfold ret; rewrite IH by (try rewrite length_app; simpl; lia).
    now rewrite <- app_assoc.
Qed.

Lemma items_packed n xs :
  0 < n -> length xs <= n -> items (packed n xs) = map Some xs.
Proof.
  intros Hn Hx; unfold items, slot, packed; simpl.
  rewrite <- (length_map Some xs) at 1.
  rewrite <- (map_nth_seq_length (map Some xs) None) at 2.
  apply map_ext_in; intros i Hi; apply in_seq in Hi.
  rewrite length_map in Hi.
  rewrite Nat.mod_small by lia.
  apply app_nth1; rewrite length_map; lia.
Qed.

(** ** Ring layout *)

Lemma nth_walk s i :
  i < size s -> nth i (map occupied (walk s)) false = occupied (slot s i).
Proof.
  intros Hi; unfold walk; rewrite map_map.
  rewrite (nth_indep _ false (occupied (slot s 0)))
    by (rewrite length_map, length_seq; lia).
  pose proof (map_nth (fun j => occupied (slot s j)) (seq 0 (size s)) 0 i) as H.
  cbv beta in H; rewrite H, seq_nth by lia; reflexivity.
Qed.

Lemma ring_layout_iff s :
  ring_layout s <->
  wf s /\ forall i, i < size s -> occupied (slot s i) = (i <? count s).
Proof.
  unfold ring_layout; fold occupied; split.
  - intros [Hwf Heq]; split; [exact Hwf|]; intros i Hi.
    rewrite <- nth_walk by exact Hi; rewrite Heq.
    apply nth_repeat_app; [apply Hwf | exact Hi].
  - intros [Hwf Hpt]; split; [exact Hwf|].
    apply nth_ext with (d := false) (d' := false).
    + unfold walk; rewrite length_app, !length_map, !repeat_length, length_seq.
      destruct Hwf as (_ & _ & _ & Hc); lia.
    + intros i Hi; unfold walk in Hi; rewrite !length_map, length_seq in Hi.
      rewrite nth_walk, nth_repeat_app by (apply Hwf || exact Hi).
      now apply Hpt.
Qed.

Lemma ring_layout_packed n xs :
  0 < n -> length xs <= n -> ring_layout (packed n xs).
Proof.
  intros Hn Hx; apply ring_layout_iff; split; [now apply wf_packed|].
  intros i Hi; unfold slot, packed in *; simpl in *.
  rewrite Nat.mod_small by lia.
  destruct (Nat.ltb_spec i (length xs)).
  - rewrite app_nth1 by (rewrite length_map; lia).
    rewrite (nth_indep _ None (Some (nth 0 xs (mk_entry "" 0))))
      by (rewrite length_map; lia).
    now rewrite map_nth.
  - rewrite app_nth2 by (rewrite length_map; lia).
    rewrite length_map.
    rewrite (In_repeat_eq _ None (n - length xs)); [reflexivity|].
    apply nth_In; rewrite repeat_length; lia.
Qed.

Lemma ring_layout_enqueue value s :
  ring_layout s -> count s < size s -> ring_layout (enqueue_post value s).
Proof.
  rewrite !ring_layout_iff; intros [Hwf Hpt] Hlt.
  split; [now apply wf_enqueue_post|].
  pose proof Hwf as (Hsz & Hlen & Hf & Hc).
  intros i Hi; unfold enqueue_post, slot in *; simpl in *.
  pose proof (Nat.mod_upper_bound (front s + count s) (size s)) as Hb.
  destruct (Nat.eq_dec i (count s)) as [->|Hne].
  - rewrite nth_list_set_eq by lia.
    simpl; symmetry; apply Nat.ltb_lt; lia.
  - rewrite nth_list_set_neq by (intros E; apply mod_add_inj in E; lia).
    rewrite Hpt by exact Hi.
    destruct (Nat.ltb_spec i (count s)), (Nat.ltb_spec i (count s + 1));
      reflexivity || lia.
Qed.

Lemma ring_layout_dequeue s :
  ring_layout s -> 0 < count s -> ring_layout (dequeue_post s).
Proof.
  rewrite !ring_layout_iff; intros [Hwf Hpt] Hpos.
  split; [now apply wf_dequeue_post|].
  pose proof Hwf as (Hsz & Hlen & Hf & Hc).
  intros i Hi; unfold dequeue_post, slot in *; simpl in *.
  rewrite mod_succ_front by lia.
  destruct (Nat.eq_dec (S i) (size s)) as [Hl|Hl].
  - replace (front s + S i) with (front s + 1 * size s) by lia.
    rewrite Nat.Div0.mod_add, Nat.mod_small by exact Hf.
    rewrite nth_list_set_eq by lia.
    simpl; symmetry; apply Nat.ltb_ge; lia.
  - rewrite nth_list_set_neq.
    + rewrite Hpt by lia.
      destruct (Nat.ltb_spec (S i) (count s)), (Nat.ltb_spec i (count s - 1));
        reflexivity || lia.
    + intros E; rewrite <- (mod_front (front s) (size s)) in E at 2 by exact Hf.
      apply mod_add_inj in E; lia.
Qed.

Lemma map_slot_some s (l : list nat) :
  (forall i, In i l -> slot s i <> None) ->
  exists es, map (slot s) l = map Some es /\ length es = length l.
Proof.
  induction l as [|i l IH]; intros Hall; [now exists []|].
  destruct IH as (es & Hes & Hlen); [intros j Hj; apply Hall; now right|].
  cbn [map]; destruct (slot s i) as [e|] eqn:E.
  - exists (e :: es); simpl; now rewrite Hes, Hlen.
  - exfalso; apply (Hall i); [now left | exact E].
Qed.

(** A queue laid out as a ring holds cars, not [None], at every logical
    position. *)
Lemma ring_layout_items s :
  ring_layout s -> exists es, items s = map Some es /\ length es = count s.
Proof.
  rewrite ring_layout_iff; intros [Hwf Hpt].
  rewrite <- (length_seq (count s) 0).
  apply map_slot_some; intros i Hi; apply in_seq in Hi.
  destruct Hwf as (_ & _ & _ & Hc).
  specialize (Hpt i ltac:(lia)).
  destruct (slot s i); [discriminate|].
  simpl in Hpt; symmetry in Hpt; apply Nat.ltb_ge in Hpt; lia.
Qed.

(** ** [set_size] *)

Lemma set_size_invalid m s : (m < 1)%Z -> set_size m s = (Err ValueError, s).
Proof. intros H; unfold set_size; apply Z.ltb_lt in H; now rewrite H. Qed.

Lemma set_size_ok m s es :
  wf s -> items s = map Some es -> (1 <= m)%Z ->
  set_size m s = (Ok tt, packed (Z.to_nat m) (firstn (Z.to_nat m) es)).
Proof.
  intros Hwf Hes Hm; unfold set_size.
  destruct (Z.ltb_spec m 1) as [|_]; [lia|].
  unfold bind; rewrite linearize_ok by exact Hwf.
  unfold modify; rewrite Hes, firstn_map, <- packed_nil.
  apply enqueue_each_packed; [lia|].
  rewrite length_firstn; simpl; lia.
Qed.

(** ** [find_index_by_car_id] *)

Lemma find_from_spec k s len a :
  a + len <= length (data s) ->
  exists r, find_from k (seq a len) s = (Ok r, s) /\ first_found s k a len r.
Proof.
  revert a; induction len as [|len IH]; intros a Ha.
  - exists None; split; [reflexivity|]; simpl; intros; lia.
  - simpl; unfold bind at 1, get; unfold bind, py_getitem.
    destruct (nth_error (data s) a) as [car|] eqn:E;
      [|apply nth_error_None in E; lia].
    pose proof (nth_error_nth _ _ None E) as Hn.
    unfold ret at 1; cbv beta iota.
    assert (Hstep : forall r, first_found s k (S a) len r ->
              ~ holds_car s k a -> first_found s k a (S len) r).
    { intros [i|] Hr Hna; simpl in Hr |- *.
      - destruct Hr as (Hi & Hh & Hb); split; [lia|]; split; [exact Hh|].
        intros j Hj; destruct (Nat.eq_dec j a) as [->|]; [exact Hna|].
        apply Hb; lia.
      - intros j Hj; destruct (Nat.eq_dec j a) as [->|]; [exact Hna|].
        apply Hr; lia. }
    destruct car as [c|].
    + destruct (String.eqb_spec (id c) k) as [Hk|Hk].
      * exists (Some a); split; [reflexivity|]; simpl.
        split; [lia|]; split; [exists c; now split|intros; lia].
      * destruct (IH (S a) ltac:(lia)) as (r & Hr & Hf).
        exists r; split; [exact Hr|]; apply Hstep; [exact Hf|].
        intros (c' & Hc' & Hk'); congruence.
    + destruct (IH (S a) ltac:(lia)) as (r & Hr & Hf).
      exists r; split; [exact Hr|]; apply Hstep; [exact Hf|].
      intros (c' & Hc' & Hk'); congruence.
Qed.

Lemma find_index_spec k s :
  wf s ->
  exists r, find_index_by_car_id k s = (Ok r, s) /\ first_found s k 0 (size s) r.
Proof.
  intros (Hsz & Hlen & Hf & Hc).
  unfold find_index_by_car_id, bind, get.
  apply find_from_spec; lia.
Qed.

(** ** [remove_by_car_id] *)

Lemma scan_after_found k l acc r :
  fold_left (scan_step k) l (acc, Some r) = (acc ++ l, Some r).
Proof.
  revert acc; induction l as [|it l IH]; intros acc; simpl.
  - now rewrite app_nil_r.
  - destruct it; rewrite IH, <- app_assoc; reflexivity.
Qed.

Lemma scan_no_match k l acc :
  (forall c, In (Some c) l -> id c <> k) ->
  fold_left (scan_step k) l (acc, None) = (acc ++ l, None).
Proof.
  revert acc; induction l as [|it l IH]; intros acc Hl; simpl.
  - now rewrite app_nil_r.
  - destruct it as [c|].
    + destruct (String.eqb_spec (id c) k) as [E|_].
      * exfalso; apply (Hl c); [now left | exact E].
      * rewrite IH, <- app_assoc; [reflexivity|].
        intros c' Hc'; apply Hl; now right.
    + rewrite IH, <- app_assoc; [reflexivity|].
      intros c' Hc'; apply Hl; now right.
Qed.

Lemma scan_first_match k pre e post :
  Forall (fun c => id c <> k) pre -> id e = k ->
  fold_left (scan_step k) (map Some (pre ++ e :: post)) ([], None)
  = (map Some (pre ++ post), Some e).
Proof.
  intros Hpre He.
  rewrite map_app, fold_left_app, scan_no_match.
  - simpl; destruct (String.eqb_spec (id e) k) as [_|]; [|contradiction].
    now rewrite scan_after_found, map_app.
  - intros c Hc; apply in_map_iff in Hc as (c' & [= <-] & Hc').
    rewrite Forall_forall in Hpre; now apply Hpre.
Qed.

(** Either no car has id [k], or there is a first one. *)
Lemma first_match_split k (es : list entry) :
  (forall c, In c es -> id c <> k) \/
  exists pre e post, es = pre ++ e :: post /\
    Forall (fun c => id c <> k) pre /\ id e = k.
Proof.
  induction es as [|x es IH]; [left; intros c []|].
  destruct (String.eqb_spec (id x) k) as [Hx|Hx].
  - right; exists [], x, es; auto.
  - destruct IH as [Hn|(pre & e & post & -> & Hpre & He)].
    + left; intros c [<-|Hc]; [exact Hx | now apply Hn].
    + right; exists (x :: pre), e, post; auto.
Qed.

Lemma remove_not_found k s :
  wf s -> (forall c, In (Some c) (items s) -> id c <> k) ->
  remove_by_car_id k s = (Ok None, s).
Proof.
  intros Hwf Hn; unfold remove_by_car_id, is_empty, bind, get, ret.
  destruct (count s =? 0); [reflexivity|].
  rewrite linearize_ok by exact Hwf.
  now rewrite scan_no_match by exact Hn.
Qed.

Lemma remove_found k s pre e post :
  wf s -> items s = map Some (pre ++ e :: post) ->
  Forall (fun c => id c <> k) pre -> id e = k ->
  remove_by_car_id k s = (Ok (Some e), packed (size s) (pre ++ post)).
Proof.
  intros Hwf Hes Hpre He.
  assert (Hcnt : length (pre ++ e :: post) = count s).
  { rewrite <- (length_map Some), <- Hes; unfold items.
    now rewrite length_map, length_seq. }
  rewrite length_app in Hcnt; simpl in Hcnt.
  pose proof Hwf as (Hsz & Hlen & Hf & Hc).
  unfold remove_by_car_id; rewrite (bind_ok _ _ _ _ _ (is_empty_val s)).
  destruct (Nat.eqb_spec (count s) 0) as [|_]; [lia|].
  rewrite (bind_ok _ _ _ _ _ (linearize_ok s Hwf)).
  rewrite Hes, scan_first_match by assumption.
  unfold bind, modify; rewrite <- packed_nil.
  rewrite enqueue_each_packed by (simpl; rewrite ?length_app; lia).
  reflexivity.
Qed.

(** ** One call of any method *)

Lemma fmap_app {A} (f : A -> value) (m : M A) s :
  fmap f m s = match m s with
               | (Ok a, s') => (Ok (f a), s')
               | (Err e, s') => (Err e, s')
               end.
Proof. unfold fmap, bind; now destruct (m s) as [[a|e] s']. Qed.

Lemma remove_cases k s :
  ring_layout s ->
  remove_by_car_id k s = (Ok None, s) \/
  exists e rest, remove_by_car_id k s = (Ok (Some e), packed (size s) rest) /\
                 length rest < count s.
Proof.
  intros Hr; pose proof Hr as [Hwf _].
  destruct (ring_layout_items s Hr) as (es & Hes & Hlen).
  destruct (first_match_split k es) as [Hn|(pre & e & post & -> & Hpre & He)].
  - left; apply remove_not_found; [exact Hwf|].
    intros c Hc; rewrite Hes in Hc.
    apply in_map_iff in Hc as (c' & [= <-] & Hc'); now apply Hn.
  - right; exists e, (pre ++ post); split; [now apply remove_found|].
    rewrite length_app in *; simpl in Hlen; lia.
Qed.

Lemma run_op_ring o s :
  ring_layout s ->
  match run_op o s with
  | (Ok _, s') => ring_layout s'
  | (Err e, s') => s' = s /\ error_case o s e
  end.
Proof.
  intros Hr; pose proof Hr as [Hwf _].
  pose proof Hwf as (Hsz & Hlen & Hf & Hc).
  destruct o as [v| | | |n|k|k| |]; simpl run_op; rewrite ?fmap_app.
  - destruct (Nat.eq_dec (count s) (size s)) as [E|E].
    + rewrite enqueue_full by exact E; simpl; auto.
    + rewrite enqueue_ok by (auto; lia).
      apply ring_layout_enqueue; [exact Hr | lia].
  - destruct (Nat.eq_dec (count s) 0) as [E|E].
    + rewrite dequeue_empty by exact E; simpl; auto.
    + rewrite dequeue_ok by (auto; lia).
      apply ring_layout_dequeue; [exact Hr | lia].
  - destruct (Nat.eq_dec (count s) 0) as [E|E].
    + rewrite peek_front_empty by exact E; simpl; auto.
    + rewrite peek_front_ok by (auto; lia); exact Hr.
  - unfold clear, modify.
    rewrite <- packed_nil; apply ring_layout_packed; simpl; lia.
  - destruct (Z.ltb_spec n 1) as [Hn|Hn].
    + rewrite set_size_invalid by exact Hn; simpl; auto.
    + destruct (ring_layout_items s Hr) as (es & Hes & _).
      rewrite (set_size_ok n s es) by assumption.
      apply ring_layout_packed; [lia|].
      rewrite length_firstn; lia.
  - destruct (find_index_spec k s Hwf) as (r & -> & _); exact Hr.
  - destruct (remove_cases k s Hr) as [->|(e & rest & -> & Hrest)]; [exact Hr|].
    apply ring_layout_packed; lia.
  - exact Hr.
  - exact Hr.
Qed.

Lemma run_op_error o s e :
  error_case o s e -> run_op o s = (Err e, s).
Proof.
  destruct o as [v| | | |n|k|k| |]; simpl; try contradiction;
    intros [-> H]; rewrite fmap_app.
  - now rewrite enqueue_full.
  - now rewrite dequeue_empty.
  - now rewrite peek_front_empty.
  - now rewrite set_size_invalid.
Qed.

(** ** Sequences of calls *)

Lemma run_ops_count l s s' :
  ring_layout s -> forallb enq_or_deq l = true ->
  run_ops l s = (Ok tt, s') ->
  ring_layout s' /\ count s' + n_dequeues l = count s + n_enqueues l.
Proof.
  revert s; induction l as [|o l IH]; intros s Hr Hl Hrun.
  - simpl in Hrun; injection Hrun as <-; unfold n_dequeues, n_enqueues; simpl.
    split; [exact Hr | lia].
  - simpl in Hl; apply andb_prop in Hl as [Ho Hl].
    pose proof (run_op_ring o s Hr) as Hstep.
    simpl in Hrun; unfold bind in Hrun.
    destruct (run_op o s) as [[v|e] s1] eqn:E; [|discriminate].
    destruct (IH s1 Hstep Hl Hrun) as [Hr' Hcnt].
    split; [exact Hr'|].
    unfold n_dequeues, n_enqueues in *; simpl.
    pose proof Hr as [(Hsz & Hlen & Hf & Hc) _].
    destruct o as [x| | | | | | | |]; try discriminate; simpl in E.
    + rewrite fmap_app in E.
      destruct (Nat.eq_dec (count s) (size s)) as [Hfull|Hfull].
      * rewrite enqueue_full in E by exact Hfull; discriminate.
      * rewrite enqueue_ok in E by (first [exact (proj1 Hr) | lia]).
        injection E as _ <-; simpl in Hcnt |- *; lia.
    + rewrite fmap_app in E.
      destruct (Nat.eq_dec (count s) 0) as [H0|H0].
      * rewrite dequeue_empty in E by exact H0; discriminate.
      * rewrite dequeue_ok in E by (first [exact (proj1 Hr) | lia]).
        injection E as _ <-; simpl in Hcnt |- *; lia.
Qed.

Lemma enqueue_all_items es s :
  wf s -> count s + length es <= size s ->
  exists s', enqueue_all es s = (Ok tt, s') /\ wf s' /\
             items s' = items s ++ map Some es.
Proof.
  revert s; induction es as [|e es IH]; intros s Hwf Hle.
  - exists s; simpl; rewrite app_nil_r; auto.
  - simpl in Hle |- *.
    rewrite (bind_ok _ _ _ _ _ (enqueue_ok e s Hwf ltac:(lia))).
    destruct (IH (enqueue_post e s)) as (s' & Hrun & Hwf' & Hit).
    + apply wf_enqueue_post; [exact Hwf | lia].
    + simpl; lia.
    + exists s'; split; [exact Hrun|]; split; [exact Hwf'|].
      rewrite Hit, items_enqueue_post by (auto; lia).
      now rewrite <- app_assoc.
Qed.

Lemma length_items s : length (items s) = count s.
Proof. unfold items; now rewrite length_map, length_seq. Qed.

Lemma dequeue_n_items n s :
  wf s -> n <= count s ->
  exists s', dequeue_n n s = (Ok (firstn n (items s)), s') /\ wf s' /\
             items s' = skipn n (items s).
Proof.
  revert s; induction n as [|n IH]; intros s Hwf Hn.
  - exists s; simpl; auto.
  - simpl.
    rewrite (bind_ok _ _ _ _ _ (dequeue_ok s Hwf ltac:(lia))).
    destruct (IH (dequeue_post s)) as (s' & Hrun & Hwf' & Hit).
    + apply wf_dequeue_post; [exact Hwf | lia].
    + simpl; lia.
    + rewrite (bind_ok _ _ _ _ _ Hrun).
      exists s'; split; [|split; [exact Hwf'|]].
      * rewrite (items_dequeue_post s Hwf) by lia; reflexivity.
      * rewrite (items_dequeue_post s Hwf) by lia; exact Hit.
Qed.

(** ** Front after a call *)

Lemma run_op_front o s :
  ring_layout s -> front_after o s (fst (run_op o s)) (snd (run_op o s)).
Proof.
  intros Hr; pose proof Hr as [Hwf _].
  pose proof Hwf as (Hsz & Hlen & Hf & Hc).
  destruct o as [v| | | |n|k|k| |]; simpl run_op; simpl front_after;
    rewrite ?fmap_app.
  - destruct (Nat.eq_dec (count s) (size s)) as [E|E].
    + now rewrite enqueue_full by exact E.
    + now rewrite enqueue_ok by (first [exact Hwf | lia]).
  - destruct (Nat.eqb_spec (count s) 0) as [E|E].
    + now rewrite dequeue_empty by exact E.
    + now rewrite dequeue_ok by (first [exact Hwf | lia]).
  - destruct (Nat.eq_dec (count s) 0) as [E|E].
    + now rewrite peek_front_empty by exact E.
    + now rewrite peek_front_ok by (first [exact Hwf | lia]).
  - reflexivity.
  - destruct (Z.ltb_spec n 1) as [Hn|Hn].
    + now rewrite set_size_invalid by exact Hn.
    + destruct (ring_layout_items s Hr) as (es & Hes & _).
      now rewrite (set_size_ok n s es) by assumption.
  - now destruct (find_index_spec k s Hwf) as (r & -> & _).
  - now destruct (remove_cases k s Hr) as [->|(e & rest & -> & _)].
  - reflexivity.
  - reflexivity.
Qed.

(** * The claims *)

(** C1: Every method call keeps the ring layout: walked from [front], the
    slots are [count] cars followed by [size - count] empty slots.  And for
    any run of enqueue and dequeue calls on a newly built queue in which no
    call raises, [count] is the number of enqueues minus the number of
    dequeues and lies within [0, size]. *)
Theorem ring_layout_preserved_and_count :
  (forall o s, ring_layout s -> ring_layout (snd (run_op o s))) /\
  (forall n s0 l s', ParkingQueue_init n = Ok s0 ->
     forallb enq_or_deq l = true -> run_ops l s0 = (Ok tt, s') ->
     n_dequeues l <= n_enqueues l /\
     count s' = n_enqueues l - n_dequeues l /\ count s' <= size s').
Proof.
  split.
  - intros o s Hr; pose proof (run_op_ring o s Hr) as H.
    destruct (run_op o s) as [[v|e] s']; simpl; [exact H|].
    destruct H as [-> _]; exact Hr.
  - intros n s0 l s' Hinit Hl Hrun.
    unfold ParkingQueue_init in Hinit.
    destruct (Z.ltb_spec n 1) as [|Hn]; [discriminate|].
    injection Hinit as <-.
    rewrite <- packed_nil in Hrun.
    destruct (run_ops_count l _ s' (ring_layout_packed (Z.to_nat n) [] ltac:(lia)
                ltac:(simpl; lia)) Hl Hrun) as [[(_ & _ & _ & Hc) _] Hcnt].
    simpl in Hcnt; lia.
Qed.

Lemma ring_layout_preserved_and_count_witness :
  ring_layout (snd (run_op (OEnqueue car_A) sample_queue)) /\
  count (snd (run_ops [OEnqueue car_A; OEnqueue car_B; ODequeue] (fresh_queue 2))) = 1.
Proof.
  destruct ring_layout_preserved_and_count as [H1 H2]; split.
  - apply H1; split; [unfold wf; simpl; lia | reflexivity].
  - destruct (H2 2%Z (fresh_queue 2) [OEnqueue car_A; OEnqueue car_B; ODequeue]
                (snd (run_ops [OEnqueue car_A; OEnqueue car_B; ODequeue] (fresh_queue 2)))
                eq_refl eq_refl eq_refl) as (_ & Hc & _).
    rewrite Hc; reflexivity.
Defined.

(** C2: FIFO law.  Enqueueing [n] cars into an empty queue of size at least
    [n] and then dequeueing [n] times returns the cars, hence their ids, in
    the order they were enqueued.  (Distinct ids are not needed.) *)
Theorem fifo_order (es : list entry) (s : ParkingQueue) :
  wf s -> count s = 0 -> length es <= size s ->
  exists vs s',
    (_ <- enqueue_all es;; dequeue_n (length es)) s = (Ok vs, s') /\
    vs = map Some es /\
    map (option_map id) vs = map (fun e => Some (id e)) es.
Proof.
  intros Hwf H0 Hn.
  destruct (enqueue_all_items es s Hwf ltac:(lia)) as (s1 & Hrun1 & Hwf1 & Hit1).
  assert (Hi0 : items s = []) by (unfold items; now rewrite H0).
  rewrite Hi0 in Hit1; simpl in Hit1.
  assert (Hc1 : count s1 = length es)
    by (rewrite <- length_items, Hit1; apply length_map).
  destruct (dequeue_n_items (length es) s1 Hwf1 ltac:(lia))
    as (s2 & Hrun2 & _ & _).
  rewrite Hit1, firstn_all2 in Hrun2 by (rewrite length_map; lia).
  exists (map Some es), s2.
  split; [now rewrite (bind_ok _ _ _ _ _ Hrun1)|].
  split; [reflexivity|].
  rewrite map_map; reflexivity.
Qed.

Lemma fifo_order_witness :
  exists vs s',
    (_ <- enqueue_all [car_A; car_B; car_C];; dequeue_n 3) (fresh_queue 3)
      = (Ok vs, s') /\ vs = [Some car_A; Some car_B; Some car_C].
Proof.
  destruct (fifo_order [car_A; car_B; car_C] (fresh_queue 3)
              ltac:(unfold wf; simpl; lia) eq_refl ltac:(simpl; lia))
    as (vs & s' & Hrun & Hvs & _).
  exists vs, s'; split; [exact Hrun | exact Hvs].
Defined.

(** C3: [enqueue(value)]: on a full queue it raises [OverflowError] (the
    spec's CapacityExceeded) and changes nothing; otherwise it writes the
    car at physical index [(front + count) mod size], increments [count],
    leaves [size], [front] and every other slot unchanged, and returns that
    index. *)
Theorem enqueue_contract (value : entry) (s : ParkingQueue) :
  wf s ->
  (count s = size s -> enqueue value s = (Err OverflowError, s)) /\
  (count s <> size s ->
   exists s', enqueue value s = (Ok ((front s + count s) mod size s), s') /\
     size s' = size s /\ front s' = front s /\ count s' = count s + 1 /\
     length (data s') = length (data s) /\
     nth ((front s + count s) mod size s) (data s') None = Some value /\
     (forall j, j <> (front s + count s) mod size s ->
                nth j (data s') None = nth j (data s) None)).
Proof.
  intros Hwf; split; [apply enqueue_full|].
  intros Hne; pose proof Hwf as (Hsz & Hlen & Hf & Hc).
  exists (enqueue_post value s).
  rewrite enqueue_ok by (first [exact Hwf | lia]).
  unfold enqueue_post; simpl.
  pose proof (Nat.mod_upper_bound (front s + count s) (size s)) as Hb.
  repeat split; try reflexivity.
  - apply length_list_set.
  - apply nth_list_set_eq; lia.
  - intros j Hj; now apply nth_list_set_neq.
Qed.

Lemma enqueue_contract_witness :
  exists s', enqueue car_D sample_queue = (Ok 0, s') /\
             count s' = 3 /\ nth 0 (data s') None = Some car_D.
Proof.
  destruct (proj2 (enqueue_contract car_D sample_queue
                     ltac:(unfold wf; simpl; lia)) ltac:(simpl; lia))
    as (s' & Hrun & _ & _ & Hc & _ & Hat & _).
  exists s'; split; [exact Hrun|]; split; [exact Hc | exact Hat].
Defined.

(** C4: [dequeue()]: on an empty queue it raises [IndexError] (the spec's
    EmptyQueue) and changes nothing; otherwise it returns the slot at
    physical index [front], empties that slot, sets [front] to
    [(front + 1) mod size], decrements [count], and leaves every other
    slot unchanged. *)
Theorem dequeue_contract (s : ParkingQueue) :
  wf s ->
  (count s = 0 -> dequeue s = (Err IndexError, s)) /\
  (count s <> 0 ->
   exists s', dequeue s = (Ok (nth (front s) (data s) None), s') /\
     size s' = size s /\ front s' = (front s + 1) mod size s /\
     count s' = count s - 1 /\
     length (data s') = length (data s) /\
     nth (front s) (data s') None = None /\
     (forall j, j <> front s -> nth j (data s') None = nth j (data s) None)).
Proof.
  intros Hwf; split; [apply dequeue_empty|].
  intros Hne; pose proof Hwf as (Hsz & Hlen & Hf & Hc).
  exists (dequeue_post s).
  rewrite dequeue_ok by (first [exact Hwf | lia]).
  unfold dequeue_post; simpl.
  repeat split; try reflexivity.
  - apply length_list_set.
  - apply nth_list_set_eq; lia.
  - intros j Hj; now apply nth_list_set_neq.
Qed.

Lemma dequeue_contract_witness :
  exists s', dequeue sample_queue = (Ok (Some car_B), s') /\ front s' = 2.
Proof.
  destruct (proj2 (dequeue_contract sample_queue
                     ltac:(unfold wf; simpl; lia)) ltac:(simpl; lia))
    as (s' & Hrun & _ & Hf & _).
  exists s'; split; [exact Hrun | exact Hf].
Defined.

(** C5: [set_size(new_size)]: for a queue whose logical order is the cars
    [es], a size below 1 raises [ValueError] (the spec's InvalidCapacity)
    and changes nothing; otherwise afterwards [size = new_size],
    [front = 0], and the logical order is the first [min(length es,
    new_size)] cars of [es]: the rest are dropped without an error. *)
Theorem set_size_contract (m : Z) (s : ParkingQueue) (es : list entry) :
  wf s -> items s = map Some es ->
  ((m < 1)%Z -> set_size m s = (Err ValueError, s)) /\
  ((1 <= m)%Z ->
   exists s', set_size m s = (Ok tt, s') /\
     size s' = Z.to_nat m /\ front s' = 0 /\
     items s' = map Some (firstn (Z.to_nat m) es) /\ ring_layout s').
Proof.
  intros Hwf Hes; split; [apply set_size_invalid|].
  intros Hm; exists (packed (Z.to_nat m) (firstn (Z.to_nat m) es)).
  assert (Hl : length (firstn (Z.to_nat m) es) <= Z.to_nat m)
    by (rewrite length_firstn; lia).
  split; [now apply set_size_ok|].
  split; [reflexivity|]; split; [reflexivity|].
  split; [apply items_packed; lia | apply ring_layout_packed; lia].
Qed.

Lemma set_size_contract_witness :
  exists s', set_size 1 sample_queue = (Ok tt, s') /\ items s' = [Some car_B].
Proof.
  destruct (proj2 (set_size_contract 1 sample_queue [car_B; car_C]
                     ltac:(unfold wf; simpl; lia) eq_refl) ltac:(lia))
    as (s' & Hrun & _ & _ & Hit & _).
  exists s'; split; [exact Hrun | exact Hit].
Defined.

Lemma find_in_packed k n xs e' :
  0 < n -> length xs <= n -> In e' xs -> id e' = k ->
  exists i, find_index_by_car_id k (packed n xs) = (Ok (Some i), packed n xs).
Proof.
  intros Hn Hx Hin Hk.
  destruct (find_index_spec k (packed n xs) (wf_packed n xs Hn Hx))
    as ([i|] & Hrun & Hfirst); [now exists i|].
  exfalso.
  destruct (In_nth xs e' e' Hin) as (j & Hj & Hnth).
  apply (Hfirst j); [simpl; lia|].
  exists e'; split; [|exact Hk].
  unfold packed; simpl.
  rewrite app_nth1 by (rewrite length_map; lia).
  rewrite (nth_indep _ None (Some e')) by (rewrite length_map; lia).
  now rewrite map_nth, Hnth.
Qed.

(** C6: [remove_by_car_id(k)]: when the logical order is [pre ++ e ::
    post] and [e] is the first car in that order with id [k], the call
    returns [e], rebuilds the queue from [pre ++ post] in the same order
    with [front = 0], and keeps [size].  A later car of [post] with the
    same id is still found afterwards. *)
Theorem remove_first_match (k : string) (s : ParkingQueue)
    (pre : list entry) (e : entry) (post : list entry) :
  wf s -> items s = map Some (pre ++ e :: post) ->
  Forall (fun c => id c <> k) pre -> id e = k ->
  exists s', remove_by_car_id k s = (Ok (Some e), s') /\
    size s' = size s /\ front s' = 0 /\
    items s' = map Some (pre ++ post) /\
    (forall e', In e' post -> id e' = k ->
       exists i, find_index_by_car_id k s' = (Ok (Some i), s')).
Proof.
  intros Hwf Hes Hpre He.
  pose proof Hwf as (Hsz & Hlen & Hf & Hc).
  assert (Hl : length (pre ++ post) < size s).
  { pose proof (length_items s) as L; rewrite Hes, length_map in L.
    rewrite !length_app in *; simpl in L; lia. }
  exists (packed (size s) (pre ++ post)).
  split; [now apply remove_found|].
  split; [reflexivity|]; split; [reflexivity|].
  split; [apply items_packed; lia|].
  intros e' Hin Hk'; apply (find_in_packed k _ _ e'); try lia; [|exact Hk'].
  apply in_or_app; now right.
Qed.

Lemma remove_first_match_witness :
  exists s', remove_by_car_id "B" (mk_queue 3 [Some car_B'; Some car_B; Some car_C] 1 3)
               = (Ok (Some car_B), s') /\
             items s' = [Some car_C; Some car_B'] /\
             exists i, find_index_by_car_id "B" s' = (Ok (Some i), s').
Proof.
  destruct (remove_first_match "B" (mk_queue 3 [Some car_B'; Some car_B; Some car_C] 1 3)
              [] car_B [car_C; car_B'] ltac:(unfold wf; simpl; lia) eq_refl
              (Forall_nil _) eq_refl)
    as (s' & Hrun & _ & _ & Hit & Hfind).
  exists s'; split; [exact Hrun|]; split; [exact Hit|].
  apply (Hfind car_B'); [simpl; auto | reflexivity].
Defined.

(** C7: [find_index_by_car_id(k)] scans the physical slots [0 .. size-1]
    in ascending order, skipping empty ones, and returns the first
    physical index whose car has id [k], or [None]; the queue is left
    unchanged. *)
Theorem find_index_physical_first (k : string) (s : ParkingQueue) :
  wf s ->
  exists r, find_index_by_car_id k s = (Ok r, s) /\
    match r with
    | Some i => i < size s /\ holds_car s k i /\
                forall j, j < i -> ~ holds_car s k j
    | None => forall j, j < size s -> ~ holds_car s k j
    end.
Proof.
  intros Hwf; destruct (find_index_spec k s Hwf) as (r & Hrun & Hff).
  exists r; split; [exact Hrun|].
  destruct r as [i|]; simpl in Hff.
  - destruct Hff as (Hi & Hh & Hb); split; [lia|]; split; [exact Hh|].
    intros j Hj; apply Hb; lia.
  - intros j Hj; apply Hff; lia.
Qed.

(** Physical order, not logical order: in [B'] at index 0 and [B] at
    index 1 with front 1, [B] is logically first but index 0 is found. *)
Lemma find_index_physical_first_witness :
  exists r, find_index_by_car_id "B" (mk_queue 3 [Some car_B'; Some car_B; Some car_C] 1 3)
              = (Ok r, mk_queue 3 [Some car_B'; Some car_B; Some car_C] 1 3) /\
            r = Some 0.
Proof.
  destruct (find_index_physical_first "B"
              (mk_queue 3 [Some car_B'; Some car_B; Some car_C] 1 3)
              ltac:(unfold wf; simpl; lia)) as (r & Hrun & Hr).
  exists r; split; [exact Hrun|].
  destruct r as [[|i]|].
  - reflexivity.
  - exfalso; destruct Hr as (_ & _ & Hb).
    apply (Hb 0); [lia | exists car_B'; split; reflexivity].
  - exfalso; apply (Hr 0); [simpl; lia | exists car_B'; split; reflexivity].
Defined.

(** C8: Errors.  The constructor raises [ValueError] (InvalidCapacity)
    exactly for a size below 1.  On a queue laid out as a ring, a call
    raises only as [error_case] lists: [OverflowError] (CapacityExceeded)
    for [enqueue] on a full queue, [IndexError] (EmptyQueue) for [dequeue]
    and [peek_front] on an empty queue, [ValueError] for [set_size] below
    1.  It then leaves the queue exactly as it was.  Lookup and removal
    never raise: a miss is the result [None]. *)
Theorem errors_atomic :
  (forall n, (ParkingQueue_init n = Err ValueError <-> (n < 1)%Z) /\
             (forall e, ParkingQueue_init n = Err e -> e = ValueError)) /\
  (forall o s, ring_layout s ->
     (forall e s', run_op o s = (Err e, s') -> s' = s /\ error_case o s e) /\
     (forall e, error_case o s e -> run_op o s = (Err e, s))).
Proof.
  split.
  - intros n; unfold ParkingQueue_init.
    destruct (Z.ltb_spec n 1); split; try split; intros; try discriminate;
      try congruence; lia.
  - intros o s Hr; split; [|apply run_op_error].
    intros e s' Hrun; pose proof (run_op_ring o s Hr) as H.
    now rewrite Hrun in H.
Qed.

Lemma errors_atomic_witness :
  enqueue car_D (mk_queue 2 [Some car_A; Some car_B] 0 2)
    = (Err OverflowError, mk_queue 2 [Some car_A; Some car_B] 0 2) /\
  (forall e s', run_op (ORemove "Z") sample_queue = (Err e, s') -> False).
Proof.
  destruct errors_atomic as [_ H].
  split.
  - pose proof (proj2 (H (OEnqueue car_D) (mk_queue 2 [Some car_A; Some car_B] 0 2)
                   ltac:(split; [unfold wf; simpl; lia | reflexivity]))
                  OverflowError (conj eq_refl eq_refl)) as E.
    simpl in E; rewrite fmap_app in E.
    destruct (enqueue car_D (mk_queue 2 [Some car_A; Some car_B] 0 2)) as [[v|e] s'];
      congruence.
  - intros e s' Hrun.
    exact (proj2 (proj1 (H (ORemove "Z") sample_queue
                           ltac:(split; [unfold wf; simpl; lia | reflexivity]))
                        e s' Hrun)).
Defined.

(** C9: [dequeue] is the only method that advances [front]: [enqueue],
    [peek_front], [find_index_by_car_id], [is_full] and [is_empty] leave
    it unchanged; [clear] sets it to 0; [set_size] sets it to 0 unless it
    raises; [remove_by_car_id] sets it to 0 when it removes a car and
    leaves it unchanged otherwise.  So every method other than [dequeue]
    leaves [front] where it was or resets it to 0. *)
Theorem only_dequeue_advances_front (o : op) (s : ParkingQueue) :
  ring_layout s ->
  front_after o s (fst (run_op o s)) (snd (run_op o s)) /\
  (o <> ODequeue ->
   front (snd (run_op o s)) = front s \/ front (snd (run_op o s)) = 0).
Proof.
  intros Hr; pose proof (run_op_front o s Hr) as H.
  split; [exact H|]; intros Hne.
  destruct o as [v| | | |n|k|k| |]; simpl in H; try contradiction;
    try (left; exact H); try (right; exact H).
  - destruct (n <? 1)%Z; [left | right]; exact H.
  - simpl run_op.
    destruct (fst (fmap VSlot (remove_by_car_id k) s)) as [[| | |[c|]|]|e];
      first [left; exact H | right; exact H].
Qed.

Lemma only_dequeue_advances_front_witness :
  front (snd (run_op (OEnqueue car_A) sample_queue)) = 1 /\
  front (snd (run_op ODequeue sample_queue)) = 2.
Proof.
  assert (Hr : ring_layout sample_queue)
    by (split; [unfold wf; simpl; lia | reflexivity]).
  split.
  - exact (proj1 (only_dequeue_advances_front (OEnqueue car_A) sample_queue Hr)).
  - exact (proj1 (only_dequeue_advances_front ODequeue sample_queue Hr)).
Defined.

(** C10: [remove_by_car_id(k)] on a queue none of whose cars in logical
    order has id [k] returns [None] and leaves [size], [data], [front] and
    [count] unchanged: the rebuild happens only after a match. *)
Theorem remove_absent_unchanged (k : string) (s : ParkingQueue) :
  wf s -> (forall c, In (Some c) (items s) -> id c <> k) ->
  remove_by_car_id k s = (Ok None, s).
Proof. apply remove_not_found. Qed.

Lemma remove_absent_unchanged_witness :
  remove_by_car_id "Z" sample_queue = (Ok None, sample_queue).
Proof.
  apply remove_absent_unchanged; [unfold wf; simpl; lia|].
  intros c Hc; simpl in Hc.
  destruct Hc as [[= <-]|[[= <-]|[]]]; discriminate.
Defined.

(** * Further lemmas: the physical array and the window *)

Lemma nth_map_seq0 {A} (g : nat -> A) n i d :
  i < n -> nth i (map g (seq 0 n)) d = g i.
Proof.
  intros Hi; rewrite (nth_indep _ d (g 0)) by (rewrite length_map, length_seq; lia).
  rewrite map_nth, seq_nth by lia; reflexivity.
Qed.

(** Walking from [front] visits the array rotated by [front]. *)
Lemma walk_rotate s :
  wf s -> walk s = skipn (front s) (data s) ++ firstn (front s) (data s).
Proof.
  intros (Hsz & Hlen & Hf & Hc).
  apply nth_ext with (d := None) (d' := None).
  - unfold walk; rewrite length_map, length_seq, length_app, length_skipn,
      length_firstn; lia.
  - intros i Hi; unfold walk in Hi; rewrite length_map, length_seq in Hi.
    unfold walk; rewrite nth_map_seq0 by exact Hi; unfold slot.
    destruct (Nat.ltb_spec i (size s - front s)).
    + rewrite app_nth1 by (rewrite length_skipn; lia).
      rewrite nth_skipn, Nat.mod_small by lia; f_equal; lia.
    + rewrite app_nth2 by (rewrite length_skipn; lia).
      rewrite length_skipn, nth_firstn.
      destruct (Nat.ltb_spec (i - (length (data s) - front s)) (front s)); [|lia].
      replace (front s + i) with ((i - (length (data s) - front s)) + 1 * size s)
        by lia.
      rewrite Nat.Div0.mod_add, Nat.mod_small by lia; reflexivity.
Qed.

Lemma walk_perm s : wf s -> Permutation (walk s) (data s).
Proof.
  intros Hwf; rewrite walk_rotate by exact Hwf.
  rewrite <- (firstn_skipn (front s) (data s)) at 3.
  apply Permutation_app_comm.
Qed.

(** The array holds [count] cars and [size - count] empty slots. *)
Lemma ring_count_occupied s :
  ring_layout s ->
  count_occ Bool.bool_dec (map occupied (data s)) true = count s /\
  count_occ Bool.bool_dec (map occupied (data s)) false = size s - count s.
Proof.
  intros [Hwf Hpat]; fold occupied in Hpat.
  assert (P : Permutation (map occupied (walk s)) (map occupied (data s)))
    by (apply Permutation_map, walk_perm, Hwf).
  pose proof (proj1 (Permutation_count_occ Bool.bool_dec _ _) P) as Pc.
  rewrite <- !Pc, Hpat.
  rewrite !count_occ_app.
  assert (R : forall b b' n, count_occ Bool.bool_dec (repeat b n) b'
                             = if Bool.eqb b b' then n else 0)
    by (intros b b' n; induction n; destruct b, b'; simpl; auto).
  rewrite !R; simpl; lia.
Qed.

(** Every car in the array is a queued car: no slot is stale. *)
Lemma ring_slot_in_items s j c :
  ring_layout s -> nth j (data s) None = Some c -> In (Some c) (items s).
Proof.
  intros Hr Hj; pose proof Hr as [Hwf _]; pose proof Hwf as (Hsz & Hlen & Hf & Hc).
  assert (Hjs : j < size s).
  { destruct (Nat.ltb_spec j (size s)); [assumption|].
    rewrite nth_overflow in Hj by lia; discriminate. }
  set (i := if front s <=? j then j - front s else j + size s - front s).
  assert (Hi : i < size s) by (unfold i; destruct (Nat.leb_spec (front s) j); lia).
  assert (Hm : (front s + i) mod size s = j).
  { unfold i; destruct (Nat.leb_spec (front s) j).
    - rewrite Nat.mod_small; lia.
    - replace (front s + (j + size s - front s)) with (j + 1 * size s) by lia.
      rewrite Nat.Div0.mod_add, Nat.mod_small; lia. }
  apply ring_layout_iff in Hr as [_ Hpt].
  specialize (Hpt i Hi); unfold slot in Hpt; rewrite Hm, Hj in Hpt.
  symmetry in Hpt; simpl in Hpt; apply Nat.ltb_lt in Hpt.
  unfold items; apply in_map_iff; exists i; split.
  - unfold slot; now rewrite Hm.
  - apply in_seq; lia.
Qed.

Lemma draw_slots_ok li lt s :
  wf s ->
  draw_slots li lt s = (Ok (map (slot_view_of li lt s) (seq 0 (size s))), s).
Proof.
  intros (Hsz & Hlen & Hf & Hc).
  unfold draw_slots, bind at 1, get.
  destruct (Nat.leb_spec (size s) 0) as [|_]; [lia|].
  apply map_m_pure; intros i Hi; apply in_seq in Hi.
  unfold draw_slot, bind, get, py_getitem.
  destruct (nth_error (data s) i) as [v|] eqn:E;
    [|apply nth_error_None in E; lia].
  pose proof (nth_error_nth _ _ None E) as Hv.
  unfold ret at 1; cbv beta iota.
  unfold marker_text, slot_view_of, marker_of; rewrite Hv.
  destruct (0 <? count s); [|reflexivity].
  unfold py_mod; destruct (Nat.eqb_spec (size s) 0) as [|_]; [lia|].
  reflexivity.
Qed.

Lemma update_dashboard_ok s :
  wf s ->
  update_dashboard s =
  (Ok (mk_dashboard (size s) (count s) (Z.of_nat (size s) - Z.of_nat (count s))
         (if count s =? 0 then None else Some (front s))
         (if count s =? 0 then None
          else Some ((front s + count s - 1) mod size s))), s).
Proof.
  intros (Hsz & Hlen & Hf & Hc).
  unfold update_dashboard, bind, get, is_empty, bind, get, ret.
  destruct (count s =? 0); [reflexivity|].
  unfold py_mod; destruct (Nat.eqb_spec (size s) 0) as [|_]; [lia|].
  reflexivity.
Qed.

Lemma occupied_views li lt s :
  wf s ->
  map occupied_view (map (slot_view_of li lt s) (seq 0 (size s)))
  = map occupied (data s).
Proof.
  intros (Hsz & Hlen & Hf & Hc).
  rewrite map_map; unfold slot_view_of; simpl.
  rewrite <- Hlen, <- (map_map (fun i => nth i (data s) None) occupied).
  now rewrite map_nth_seq_length.
Qed.

(** The "Occupied" and "Free" cards of the dashboard equal the numbers of
    occupied and free slots [draw_slots] draws; neither raises on a queue
    laid out as a ring. *)
Theorem dashboard_matches_drawing (li : option nat) (lt : option string)
    (s : ParkingQueue) :
  ring_layout s ->
  exists views d,
    draw_slots li lt s = (Ok views, s) /\ update_dashboard s = (Ok d, s) /\
    length views = size s /\ total_slots d = size s /\
    occupied_slots d = count_occ Bool.bool_dec (map occupied_view views) true /\
    free_slots d = Z.of_nat (count_occ Bool.bool_dec (map occupied_view views) false).
Proof.
  intros Hr; pose proof Hr as [Hwf _]; pose proof Hwf as (Hsz & Hlen & Hf & Hc).
  destruct (ring_count_occupied s Hr) as [Ht Hfr].
  eexists _, _; split; [apply draw_slots_ok, Hwf|].
  split; [apply update_dashboard_ok, Hwf|].
  rewrite length_map, length_seq, occupied_views by exact Hwf; simpl.
  rewrite Ht, Hfr; repeat split; lia.
Qed.

Lemma dashboard_matches_drawing_witness :
  exists views d,
    draw_slots None None sample_queue = (Ok views, sample_queue) /\
    update_dashboard sample_queue = (Ok d, sample_queue) /\
    occupied_slots d = 2 /\ free_slots d = 1%Z.
Proof.
  destruct (dashboard_matches_drawing None None sample_queue
              ltac:(split; [unfold wf; simpl; lia | reflexivity]))
    as (views & d & Hv & Hd & _ & _ & Ho & Hfr).
  exists views, d; split; [exact Hv|]; split; [exact Hd|].
  rewrite Ho, Hfr; clear Ho Hfr.
  rewrite draw_slots_ok in Hv by (unfold wf; simpl; lia).
  injection Hv as <-; split; reflexivity.
Defined.

Lemma rear_is_front s :
  wf s -> 0 < count s -> (rear_slot s = front s <-> count s = 1).
Proof.
  intros (Hsz & Hlen & Hf & Hc) Hpos; unfold rear_slot; split; intros H.
  - assert (E : front s = (front s + 0) mod size s)
      by (rewrite Nat.add_0_r, Nat.mod_small; lia).
    replace (front s + count s - 1) with (front s + (count s - 1)) in H by lia.
    rewrite E in H at 2.
    apply mod_add_inj in H; lia.
  - rewrite H; replace (front s + 1 - 1) with (front s) by lia.
    apply Nat.mod_small; lia.
Qed.

Lemma marker_of_spec s i :
  wf s ->
  marker_of s i =
  if count s =? 0 then ""%string
  else if i =? front s then
    (if count s =? 1 then "F/R"%string else "F"%string)
  else if i =? rear_slot s then "R"%string
  else ""%string.
Proof.
  intros Hwf; pose proof Hwf as (Hsz & Hlen & Hf & Hc); unfold marker_of.
  rewrite (Nat.mod_small (front s)) by lia; fold (rear_slot s).
  destruct (Nat.eqb_spec (count s) 0) as [H0|H0].
  - rewrite H0; reflexivity.
  - replace (0 <? count s) with true by (symmetry; apply Nat.ltb_lt; lia).
    pose proof (rear_is_front s Hwf ltac:(lia)) as Hrf.
    destruct (Nat.eqb_spec i (front s)) as [Hi1|Hi1];
      destruct (Nat.eqb_spec i (rear_slot s)) as [Hi2|Hi2];
      destruct (Nat.eqb_spec (count s) 1) as [Hi3|Hi3];
      try reflexivity; exfalso; destruct Hrf as [A B];
      first [ apply Hi3, A; congruence
            | apply Hi2; rewrite (B Hi3); exact Hi1
            | apply Hi1; rewrite <- (B Hi3); exact Hi2 ].
Qed.

(** [draw_slots] marks the front slot "F" and the rear slot "R"; when one car
    is parked both fall on the same slot, marked "F/R"; every other slot,
    and every slot of an empty lot, has no marker.  The front and rear slots
    are drawn occupied. *)
Theorem slot_markers (li : option nat) (lt : option string) (s : ParkingQueue) :
  ring_layout s ->
  exists views,
    draw_slots li lt s = (Ok views, s) /\
    (forall i, i < size s ->
       marker (nth i views blank_view) =
       if count s =? 0 then ""%string
       else if i =? front s then
         (if count s =? 1 then "F/R"%string else "F"%string)
       else if i =? rear_slot s then "R"%string
       else ""%string) /\
    (0 < count s ->
       occupied_view (nth (front s) views blank_view) = true /\
       occupied_view (nth (rear_slot s) views blank_view) = true).
Proof.
  intros Hr; pose proof Hr as [Hwf _]; pose proof Hwf as (Hsz & Hlen & Hf & Hc).
  pose proof (proj2 (proj1 (ring_layout_iff s) Hr)) as Hocc.
  eexists; split; [apply draw_slots_ok, Hwf|]; split.
  - intros i Hi; rewrite nth_map_seq0 by exact Hi; simpl.
    now apply marker_of_spec.
  - intros Hpos; rewrite !nth_map_seq0
      by (unfold rear_slot; try apply Nat.mod_upper_bound; lia); simpl.
    split.
    + specialize (Hocc 0 Hsz); unfold slot in Hocc.
      rewrite Nat.add_0_r, Nat.mod_small in Hocc by lia.
      rewrite Hocc; apply Nat.ltb_lt; exact Hpos.
    + specialize (Hocc (count s - 1) ltac:(lia)); unfold slot in Hocc.
      unfold rear_slot; replace (front s + count s - 1)
        with (front s + (count s - 1)) by lia.
      rewrite Hocc; apply Nat.ltb_lt; lia.
Qed.

Lemma slot_markers_witness :
  exists views,
    draw_slots None None sample_queue = (Ok views, sample_queue) /\
    marker (nth 1 views blank_view) = "F"%string /\
    marker (nth 2 views blank_view) = "R"%string /\
    marker (nth 0 views blank_view) = ""%string.
Proof.
  destruct (slot_markers None None sample_queue
              ltac:(split; [unfold wf; simpl; lia | reflexivity]))
    as (views & Hv & Hm & _).
  exists views; split; [exact Hv|].
  rewrite (Hm 1), (Hm 2), (Hm 0) by (simpl; lia).
  split; [|split]; reflexivity.
Defined.

(** ** The event handlers *)

Lemma enqueue_post_rear value s :
  wf s -> count s < size s ->
  rear_slot (enqueue_post value s) = (front s + count s) mod size s /\
  nth (rear_slot (enqueue_post value s)) (data (enqueue_post value s)) None
    = Some value.
Proof.
  intros (Hsz & Hlen & Hf & Hc) Hlt.
  assert (E : rear_slot (enqueue_post value s) = (front s + count s) mod size s)
    by (unfold rear_slot, enqueue_post; simpl; f_equal; lia).
  split; [exact E|]; rewrite E; unfold enqueue_post; simpl.
  apply nth_list_set_eq; rewrite Hlen; apply Nat.mod_upper_bound; lia.
Qed.

(** [on_enqueue] on a lot with a free slot parks the car under the id the
    entry gives, or ["Car" + str(auto_car_id)] when the entry is blank, in
    which case the counter moves on; the car joins the end of the line, in
    the slot marked "R", and that slot is the one highlighted. *)
Theorem on_enqueue_parks (text : string) (now : Z) (a : ParkingApp) :
  ring_layout (queue a) -> count (queue a) < size (queue a) ->
  let o := on_enqueue text now a in
  let q' := queue (app o) in
  let car := mk_entry (chosen_id text a) now in
  uncaught o = None /\ dialogs o = [] /\
  items q' = items (queue a) ++ [Some car] /\ ring_layout q' /\
  last_action_index (app o) = Some (rear_slot q') /\
  last_action_type (app o) = Some "enqueue"%string /\
  nth (rear_slot q') (data q') None = Some car /\
  auto_car_id (app o) =
    (if String.eqb (py_strip text) "" then auto_car_id a + 1 else auto_car_id a)%Z.
Proof.
  intros Hr Hlt; pose proof Hr as [Hwf _].
  unfold on_enqueue, chosen_id.
  destruct (String.eqb (py_strip text) "") eqn:E; simpl;
    rewrite enqueue_ok by (first [exact Hwf | exact Hlt]); simpl;
    match goal with |- context [enqueue_post ?v _] =>
      destruct (enqueue_post_rear v (queue a) Hwf Hlt) as [R1 R2] end;
    rewrite R1 in *;
    repeat split;
    first [ reflexivity | exact R2
          | apply items_enqueue_post; assumption
          | apply ring_layout_enqueue; assumption ].
Qed.

Lemma on_enqueue_parks_witness :
  items (queue (app (on_enqueue " " 5 app_init))) = [Some (mk_entry "Car1" 5)].
Proof.
  destruct (on_enqueue_parks " " 5 app_init
              ltac:(apply ring_layout_packed with (xs := []); simpl; lia)
              ltac:(simpl; lia))
    as (_ & _ & Hit & _).
  rewrite Hit; reflexivity.
Defined.

(** [on_enqueue] on a full lot shows the "Parking Full" warning and leaves
    the lot and the highlight as they were; a blank entry still uses up a
    number of [auto_car_id]. *)
Theorem on_enqueue_full (text : string) (now : Z) (a : ParkingApp) :
  count (queue a) = size (queue a) ->
  on_enqueue text now a =
  mk_out (mk_app (queue a)
            (if String.eqb (py_strip text) "" then auto_car_id a + 1
             else auto_car_id a)%Z
            (last_action_index a) (last_action_type a))
         [ShowWarning "Parking Full"] None.
Proof.
  intros Hfull; unfold on_enqueue.
  destruct (String.eqb (py_strip text) "") eqn:E; simpl;
    rewrite enqueue_full by exact Hfull; reflexivity.
Qed.

Lemma on_enqueue_full_witness :
  auto_car_id (app (on_enqueue "" 7 (mk_app (packed 1 [car_A]) 4 None None))) = 5%Z.
Proof.
  rewrite (on_enqueue_full "" 7 (mk_app (packed 1 [car_A]) 4 None None))
    by reflexivity.
  reflexivity.
Defined.

Lemma hd_items s :
  wf s -> 0 < count s -> hd_error (items s) = Some (nth (front s) (data s) None).
Proof.
  intros (Hsz & Hlen & Hf & Hc) Hpos; unfold items.
  destruct (count s) as [|c] eqn:E; [lia|]; simpl.
  unfold slot; now rewrite mod_front.
Qed.

Lemma ring_front_occupied s :
  ring_layout s -> 0 < count s -> exists c, nth (front s) (data s) None = Some c.
Proof.
  intros Hr Hpos; apply ring_layout_iff in Hr as [Hwf Hpt].
  pose proof Hwf as (Hsz & Hlen & Hf & Hc).
  specialize (Hpt 0 Hsz); unfold slot in Hpt; rewrite mod_front in Hpt by lia.
  destruct (nth (front s) (data s) None) as [c|]; [now exists c|].
  apply Nat.ltb_lt in Hpos; simpl in Hpt; congruence.
Qed.

Lemma with_queue_same a : with_queue (queue a) a = a.
Proof. now destruct a. Qed.



(** [peek_front] leaves the queue as it is and returns what [dequeue] would
    return, raising exactly when [dequeue] raises. *)
Theorem peek_front_agrees_with_dequeue (s : ParkingQueue) :
  wf s -> snd (peek_front s) = s /\ fst (peek_front s) = fst (dequeue s).
Proof.
  intros Hwf; destruct (Nat.eqb_spec (count s) 0) as [H0|H0].
  - now rewrite peek_front_empty, dequeue_empty.
  - rewrite peek_front_ok, dequeue_ok by (first [exact Hwf | lia]); auto.
Qed.

Lemma peek_front_agrees_with_dequeue_witness :
  fst (peek_front sample_queue) = Ok (Some car_B).
Proof.
  rewrite (proj2 (peek_front_agrees_with_dequeue sample_queue
                    ltac:(unfold wf; simpl; lia))).
  reflexivity.
Defined.

(** [on_peek_front] on an empty lot says "Parking Empty" and changes
    nothing; otherwise it highlights the front slot, which holds the first
    car in line, and leaves the lot as it is. *)
Theorem on_peek_front_highlights (a : ParkingApp) :
  ring_layout (queue a) ->
  (count (queue a) = 0 ->
     on_peek_front a = mk_out a [ShowInfo "Parking Empty"] None) /\
  (0 < count (queue a) ->
     let o := on_peek_front a in
     queue (app o) = queue a /\ uncaught o = None /\
     dialogs o = [ShowInfo "Peek Front"] /\
     last_action_index (app o) = Some (front (queue a)) /\
     last_action_type (app o) = Some "search"%string /\
     exists car, nth (front (queue a)) (data (queue a)) None = Some car /\
                 hd_error (items (queue a)) = Some (Some car)).
Proof.
  intros Hr; pose proof Hr as [Hwf _]; split.
  - intros H0; unfold on_peek_front; rewrite peek_front_empty by exact H0.
    now rewrite with_queue_same.
  - intros Hpos; simpl.
    destruct (ring_front_occupied _ Hr Hpos) as [car Hcar].
    unfold on_peek_front; rewrite peek_front_ok by assumption; rewrite Hcar; simpl.
    repeat split; exists car; split; [reflexivity|].
    rewrite hd_items by assumption; now rewrite Hcar.
Qed.

Lemma on_peek_front_highlights_witness :
  last_action_index (app (on_peek_front (mk_app sample_queue 1 None None))) = Some 1.
Proof.
  destruct (proj2 (on_peek_front_highlights (mk_app sample_queue 1 None None)
                     ltac:(split; [unfold wf; simpl; lia | reflexivity]))
                  ltac:(simpl; lia)) as (_ & _ & _ & Hl & _).
  exact Hl.
Defined.

Lemma items_In_slot s c :
  wf s -> In (Some c) (items s) ->
  exists j, j < size s /\ nth j (data s) None = Some c.
Proof.
  intros (Hsz & Hlen & Hf & Hc) Hin; unfold items in Hin.
  apply in_map_iff in Hin as (i & Hi & _); unfold slot in Hi.
  exists ((front s + i) mod size s); split; [apply Nat.mod_upper_bound; lia|].
  exact Hi.
Qed.


(** A car whose id no parked car has is found, right after [enqueue], at
    the index [enqueue] returned. *)
Theorem enqueue_then_find (v : entry) (s : ParkingQueue) :
  ring_layout s -> count s < size s ->
  (forall c, In (Some c) (items s) -> id c <> id v) ->
  exists idx s', enqueue v s = (Ok idx, s') /\
                 find_index_by_car_id (id v) s' = (Ok (Some idx), s').
Proof.
  intros Hr Hlt Hn; pose proof Hr as [Hwf _].
  pose proof Hwf as (Hsz & Hlen & Hf & Hc).
  set (idx := (front s + count s) mod size s).
  assert (Hidx : idx < length (data s))
    by (rewrite Hlen; apply Nat.mod_upper_bound; lia).
  exists idx, (enqueue_post v s); split; [now apply enqueue_ok|].
  destruct (find_index_spec (id v) (enqueue_post v s) (wf_enqueue_post v s Hwf Hlt))
    as ([i|] & Hrun & Hff); rewrite Hrun; f_equal; f_equal.
  - destruct Hff as (_ & (c & Hci & Hk) & _).
    destruct (Nat.eq_dec i idx) as [->|Hne]; [reflexivity|exfalso].
    unfold enqueue_post in Hci; simpl in Hci.
    rewrite nth_list_set_neq in Hci by exact Hne.
    exact (Hn c (ring_slot_in_items s i c Hr Hci) Hk).
  - exfalso; apply (Hff idx); [simpl; lia|].
    exists v; split; [|reflexivity].
    unfold enqueue_post; simpl; now apply nth_list_set_eq.
Qed.

Lemma enqueue_then_find_witness :
  exists idx s', enqueue car_D sample_queue = (Ok idx, s') /\
                 find_index_by_car_id "D" s' = (Ok (Some idx), s').
Proof.
  apply (enqueue_then_find car_D sample_queue).
  - split; [unfold wf; simpl; lia | reflexivity].
  - simpl; lia.
  - intros c Hc; simpl in Hc.
    destruct Hc as [[= <-]|[[= <-]|[]]]; discriminate.
Defined.





(** [on_search_car] with a blank entry warns "Car ID missing" and changes
    nothing.  Otherwise it reports on the id the entry holds without
    touching the lot: either it highlights a slot that holds a parked car
    with that id, or no parked car has it and the highlight is removed. *)
Theorem on_search_car_result (text : string) (a : ParkingApp) :
  ring_layout (queue a) ->
  (py_strip text = ""%string ->
     on_search_car text a = mk_out a [ShowWarning "Car ID missing"] None) /\
  (py_strip text <> ""%string ->
     let k := py_strip text in
     let o := on_search_car text a in
     queue (app o) = queue a /\ auto_car_id (app o) = auto_car_id a /\
     uncaught o = None /\ dialogs o = [ShowInfo "Search Result"] /\
     match last_action_index (app o) with
     | Some i => last_action_type (app o) = Some "search"%string /\
                 exists c, nth i (data (queue a)) None = Some c /\ id c = k /\
                           In (Some c) (items (queue a))
     | None => last_action_type (app o) = last_action_type a /\
               forall c, In (Some c) (items (queue a)) -> id c <> k
     end).
Proof.
  intros Hr; pose proof Hr as [Hwf _]; unfold on_search_car; split.
  - intros E; now rewrite E.
  - intros E; simpl; destruct (String.eqb_spec (py_strip text) "") as [|_];
      [contradiction|].
    destruct (find_index_spec (py_strip text) (queue a) Hwf)
      as ([i|] & Hrun & Hff); rewrite Hrun; simpl; repeat split.
    + destruct Hff as (_ & (c & Hc & Hk) & _).
      exists c; repeat split; [exact Hc | exact Hk|].
      exact (ring_slot_in_items _ i c Hr Hc).
    + intros c Hin Hk.
      destruct (items_In_slot _ c Hwf Hin) as (j & Hj & Hc).
      apply (Hff j); [lia|]; now exists c.
Qed.

Lemma on_search_car_result_witness :
  id car_B <> "Z"%string /\ id car_C <> "Z"%string.
Proof.
  pose proof (proj2 (on_search_car_result "Z" (mk_app sample_queue 1 None None)
                       ltac:(split; [unfold wf; simpl; lia | reflexivity]))
                    ltac:(discriminate)) as H.
  simpl in H; destruct H as (_ & _ & _ & _ & _ & H).
  split; apply H; simpl; auto.
Defined.

(** [on_remove_car] with a blank entry warns "Car ID missing" and changes
    nothing.  Otherwise, when no parked car has the id, it says so, leaves
    the lot alone and removes the highlight; when one does, the first such
    car in line leaves, the others keep their order, "Car Removed" is shown,
    and the highlight goes to the new front slot (none when the lot is now
    empty), which holds the car now first in line.  Either way the lot keeps
    its ring layout and nothing is left uncaught. *)
Theorem on_remove_car_result (text : string) (a : ParkingApp) :
  ring_layout (queue a) ->
  (py_strip text = ""%string ->
     on_remove_car text a = mk_out a [ShowWarning "Car ID missing"] None) /\
  (py_strip text <> ""%string ->
     let k := py_strip text in
     let o := on_remove_car text a in
     let q' := queue (app o) in
     uncaught o = None /\ auto_car_id (app o) = auto_car_id a /\ ring_layout q' /\
     ((forall c, In (Some c) (items (queue a)) -> id c <> k) /\
      q' = queue a /\ last_action_index (app o) = None /\
      dialogs o = [ShowInfo "Remove Result"]
      \/
      exists pre e post,
        items (queue a) = map Some (pre ++ e :: post) /\
        Forall (fun c => id c <> k) pre /\ id e = k /\
        items q' = map Some (pre ++ post) /\ size q' = size (queue a) /\
        dialogs o = [ShowInfo "Car Removed"] /\
        last_action_type (app o) = Some "remove"%string /\
        last_action_index (app o) = (if count q' =? 0 then None else Some (front q')) /\
        (0 < count q' -> hd_error (items q') = Some (nth (front q') (data q') None)))).
Proof.
  intros Hr; pose proof Hr as [Hwf _]; pose proof Hwf as (Hsz & Hlen & Hf & Hc).
  unfold on_remove_car; split.
  - intros E; now rewrite E.
  - intros E; simpl; destruct (String.eqb_spec (py_strip text) "") as [|_];
      [contradiction|].
    destruct (ring_layout_items _ Hr) as (es & Hes & Hlen_es).
    destruct (first_match_split (py_strip text) es)
      as [Hn|(pre & e & post & -> & Hpre & He)].
    + assert (Hn' : forall c, In (Some c) (items (queue a)) -> id c <> py_strip text).
      { intros c Hin; rewrite Hes in Hin.
        apply in_map_iff in Hin as (c' & [= ->] & Hc'); now apply Hn. }
      rewrite remove_not_found by assumption; simpl.
      split; [reflexivity|]; split; [reflexivity|]; split; [exact Hr|].
      left; auto.
    + assert (Hl : length (pre ++ post) <= size (queue a))
        by (rewrite length_app in *; simpl in Hlen_es; lia).
      rewrite (remove_found _ _ pre e post) by assumption; simpl.
      split; [reflexivity|]; split; [reflexivity|].
      split; [now apply ring_layout_packed|].
      right; exists pre, e, post.
      split; [exact Hes|]; split; [exact Hpre|]; split; [exact He|].
      split; [now apply items_packed|]; split; [reflexivity|].
      do 3 (split; [reflexivity|]).
      intros Hpos; apply hd_items; [now apply wf_packed | exact Hpos].
Qed.

Lemma on_remove_car_result_witness :
  exists pre e post,
    items sample_queue = map Some (pre ++ e :: post) /\ id e = "B"%string /\
    items (queue (app (on_remove_car " B " (mk_app sample_queue 1 None None))))
      = map Some (pre ++ post).
Proof.
  destruct (proj2 (on_remove_car_result " B " (mk_app sample_queue 1 None None)
                     ltac:(split; [unfold wf; simpl; lia | reflexivity]))
                  ltac:(discriminate)) as (_ & _ & _ & [(Hn & _)|H]).
  - exfalso; apply (Hn car_B); [simpl; auto | reflexivity].
  - destruct H as (pre & e & post & H1 & _ & H3 & H4 & _).
    exists pre, e, post; auto.
Defined.

(** [on_set_size] refuses an entry that is not a whole number, or is below
    1, with "Invalid size" and changes nothing.  A size [n >= 1] rebuilds
    the lot with [n] slots, keeps the first [n] cars in line in their order
    from slot 0, removes the highlight, and never reaches the generic
    "Error" branch. *)
Theorem on_set_size_result (a : ParkingApp) (es : list entry) :
  on_set_size None a = mk_out a [ShowError "Invalid size"] None /\
  (forall n, (n < 1)%Z -> on_set_size (Some n) a = mk_out a [ShowError "Invalid size"] None) /\
  (ring_layout (queue a) -> items (queue a) = map Some es ->
   forall n, (1 <= n)%Z ->
     let o := on_set_size (Some n) a in
     let q' := queue (app o) in
     uncaught o = None /\ dialogs o = [] /\
     size q' = Z.to_nat n /\ front q' = 0 /\
     items q' = map Some (firstn (Z.to_nat n) es) /\ ring_layout q' /\
     last_action_index (app o) = None /\ auto_car_id (app o) = auto_car_id a).
Proof.
  split; [reflexivity|]; split.
  - intros n Hn; unfold on_set_size; apply Z.ltb_lt in Hn; now rewrite Hn.
  - intros Hr Hes n Hn; pose proof Hr as [Hwf _].
    unfold on_set_size.
    destruct (Z.ltb_spec n 1) as [|_]; [lia|].
    rewrite (set_size_ok n (queue a) es) by assumption; simpl.
    assert (Hl : length (firstn (Z.to_nat n) es) <= Z.to_nat n)
      by (rewrite length_firstn; lia).
    do 4 (split; [reflexivity|]).
    split; [apply items_packed; lia|].
    split; [apply ring_layout_packed; lia|].
    split; reflexivity.
Qed.

Lemma on_set_size_result_witness :
  items (queue (app (on_set_size (Some 1%Z) (mk_app sample_queue 1 None None))))
  = [Some car_B].
Proof.
  destruct (proj2 (proj2 (on_set_size_result (mk_app sample_queue 1 None None)
                            [car_B; car_C]))
              ltac:(split; [unfold wf; simpl; lia | reflexivity])
              eq_refl 1%Z ltac:(lia)) as (_ & _ & _ & _ & Hit & _).
  exact Hit.
Defined.

(** [on_clear] always asks "Clear All" first; on "no" nothing changes, on
    "yes" every car leaves, the capacity stays, the highlight is removed
    and the numbering of automatic ids goes on. *)
Theorem on_clear_result (yes : bool) (a : ParkingApp) :
  wf (queue a) ->
  dialogs (on_clear yes a) = [AskYesNo "Clear All"] /\
  uncaught (on_clear yes a) = None /\
  (yes = false -> app (on_clear yes a) = a) /\
  (yes = true ->
     let q' := queue (app (on_clear yes a)) in
     size q' = size (queue a) /\ items q' = [] /\ ring_layout q' /\
     last_action_index (app (on_clear yes a)) = None /\
     auto_car_id (app (on_clear yes a)) = auto_car_id a).
Proof.
  intros (Hsz & Hlen & Hf & Hc).
  destruct yes; unfold on_clear; simpl; (split; [reflexivity|]);
    (split; [reflexivity|]); split; try discriminate; intros _.
  - rewrite <- packed_nil; split; [reflexivity|].
    split; [apply items_packed; simpl; lia|].
    split; [apply ring_layout_packed; simpl; lia|].
    split; reflexivity.
  - reflexivity.
Qed.

Lemma on_clear_result_witness :
  items (queue (app (on_clear true (mk_app sample_queue 1 None None)))) = [].
Proof.
  destruct (proj2 (proj2 (proj2 (on_clear_result true (mk_app sample_queue 1 None None)
                                   ltac:(unfold wf; simpl; lia)))) eq_refl)
    as (_ & Hit & _).
  exact Hit.
Defined.

Lemma enqueue_all_packed n xs ys :
  0 < n -> length xs + length ys <= n ->
  enqueue_all ys (packed n xs) = (Ok tt, packed n (xs ++ ys)).
Proof.
  revert xs; induction ys as [|y ys IH]; intros xs Hn Hle.
  - simpl; now rewrite app_nil_r.
  - simpl in Hle |- *; unfold bind at 1.
    rewrite enqueue_packed by lia.
    rewrite IH by (try rewrite length_app; simpl; lia).
    now rewrite <- app_assoc.
Qed.

(** A queue built with [size = n] takes exactly [n] cars: [n] enqueues
    succeed and keep the cars in arrival order, and the next one raises
    [OverflowError], leaving the queue as it is. *)
Theorem capacity_exact (n : Z) (s0 : ParkingQueue) (es : list entry) :
  ParkingQueue_init n = Ok s0 -> length es = Z.to_nat n ->
  exists s', enqueue_all es s0 = (Ok tt, s') /\ items s' = map Some es /\
    fst (is_full s') = Ok true /\
    forall v, enqueue v s' = (Err OverflowError, s').
Proof.
  unfold ParkingQueue_init; intros Hinit Hlen.
  destruct (Z.ltb_spec n 1) as [|Hn]; [discriminate|].
  injection Hinit as <-; rewrite <- packed_nil.
  exists (packed (Z.to_nat n) es).
  rewrite enqueue_all_packed by (simpl; lia).
  split; [reflexivity|]; split; [apply items_packed; lia|].
  assert (Hfull : count (packed (Z.to_nat n) es) = size (packed (Z.to_nat n) es))
    by (simpl; lia).
  split; [rewrite is_full_val, Hfull, Nat.eqb_refl; reflexivity|].
  intros v; now apply enqueue_full.
Qed.

Lemma capacity_exact_witness :
  exists s', enqueue_all [car_A; car_B] (fresh_queue 2) = (Ok tt, s') /\
    enqueue car_C s' = (Err OverflowError, s').
Proof.
  destruct (capacity_exact 2 (fresh_queue 2) [car_A; car_B] eq_refl eq_refl)
    as (s' & Hrun & _ & _ & Hov).
  exists s'; split; [exact Hrun | apply Hov].
Defined.

(** ** Runs of user actions *)

Lemma handle_safe ev a :
  ring_layout (queue a) ->
  uncaught (handle ev a) = None /\ ring_layout (queue (app (handle ev a))).
Proof.
  intros Hr; pose proof Hr as [Hwf _]; pose proof Hwf as (Hsz & Hlen & Hf & Hc).
  destruct ev as [text now| | |text|text|[n|]|[|]]; simpl.
  - unfold on_enqueue.
    destruct (String.eqb (py_strip text) ""); simpl;
      (destruct (Nat.eq_dec (count (queue a)) (size (queue a))) as [E|E];
       [rewrite enqueue_full by exact E; simpl; auto
       |rewrite enqueue_ok by (first [exact Hwf | lia]); simpl;
        split; [reflexivity | apply ring_layout_enqueue; [exact Hr | lia]]]).
  - unfold on_dequeue.
    destruct (Nat.eqb_spec (count (queue a)) 0) as [E|E].
    + rewrite dequeue_empty by exact E; simpl; auto.
    + destruct (ring_front_occupied _ Hr ltac:(lia)) as [car Hcar].
      rewrite dequeue_ok by (first [exact Hwf | lia]); rewrite Hcar; simpl.
      split; [reflexivity | apply ring_layout_dequeue; [exact Hr | lia]].
  - unfold on_peek_front.
    destruct (Nat.eqb_spec (count (queue a)) 0) as [E|E].
    + rewrite peek_front_empty by exact E; simpl; auto.
    + destruct (ring_front_occupied _ Hr ltac:(lia)) as [car Hcar].
      rewrite peek_front_ok by (first [exact Hwf | lia]); rewrite Hcar; simpl; auto.
  - unfold on_search_car; destruct (String.eqb (py_strip text) ""); [simpl; auto|].
    destruct (find_index_spec (py_strip text) (queue a) Hwf) as ([i|] & -> & _);
      simpl; auto.
  - unfold on_remove_car; destruct (String.eqb (py_strip text) ""); [simpl; auto|].
    destruct (remove_cases (py_strip text) (queue a) Hr)
      as [->|(e & rest & -> & Hl)]; simpl; [auto|].
    split; [reflexivity | apply ring_layout_packed; lia].
  - unfold on_set_size.
    destruct (Z.ltb_spec n 1) as [Hn|Hn]; [simpl; auto|].
    destruct (ring_layout_items _ Hr) as (es & Hes & _).
    rewrite (set_size_ok n (queue a) es) by assumption; simpl.
    split; [reflexivity | apply ring_layout_packed; [lia | rewrite length_firstn; lia]].
  - simpl; auto.
  - unfold on_clear; simpl; rewrite <- packed_nil.
    split; [reflexivity | apply ring_layout_packed; simpl; lia].
  - simpl; auto.
Qed.

(** Starting from a lot laid out as a ring (the one [ParkingApp.__init__]
    builds is), no run of user actions ever leaves an exception uncaught,
    and the lot stays laid out as a ring throughout. *)
Theorem run_events_safe (evs : list event) (a : ParkingApp) :
  ring_layout (queue a) ->
  snd (run_events evs a) = [] /\ ring_layout (queue (fst (run_events evs a))).
Proof.
  revert a; induction evs as [|ev evs IH]; intros a Hr; [simpl; auto|].
  simpl; destruct (handle_safe ev a Hr) as [Hu Hr'].
  destruct (IH (app (handle ev a)) Hr') as [He Hr''].
  destruct (run_events evs (app (handle ev a))) as [a' errs]; simpl in *.
  rewrite Hu; auto.
Qed.

Lemma run_events_safe_witness :
  snd (run_events [EvEnqueue "" 1; EvDequeue; EvDequeue; EvSetSize (Some 2%Z);
                   EvRemove "X"; EvClear true] app_init) = [].
Proof.
  apply (proj1 (run_events_safe _ app_init
                  ltac:(apply ring_layout_packed with (xs := []); simpl; lia))).
Defined.

(** [auto_car_id] counts the enqueue actions with a blank entry, whether or
    not the car could be parked; no other action changes it. *)
Theorem auto_car_id_counts_blank_enqueues (evs : list event) (a : ParkingApp) :
  auto_car_id (fst (run_events evs a)) = (auto_car_id a + Z.of_nat (blank_enqueues evs))%Z.
Proof.
  revert a; induction evs as [|ev evs IH]; intros a; [simpl; lia|].
  unfold blank_enqueues in *; simpl.
  pose proof (IH (app (handle ev a))) as H.
  destruct (run_events evs (app (handle ev a))) as [a' errs]; simpl in *.
  rewrite H; clear H IH.
  assert (Hstep : auto_car_id (app (handle ev a)) =
    (auto_car_id a + match ev with
                     | EvEnqueue text _ => if String.eqb (py_strip text) "" then 1 else 0
                     | _ => 0 end)%Z).
  { destruct ev as [text now| | |text|text|[n|]|[|]]; simpl.
    - unfold on_enqueue; destruct (String.eqb (py_strip text) ""); simpl;
        destruct (enqueue _ _) as [[idx|[]] q]; simpl; lia.
    - unfold on_dequeue; destruct (dequeue (queue a)) as [[[c|]|[]] q]; simpl; lia.
    - unfold on_peek_front; destruct (peek_front (queue a)) as [[[c|]|[]] q]; simpl; lia.
    - unfold on_search_car; destruct (String.eqb (py_strip text) ""); [simpl; lia|].
      destruct (find_index_by_car_id _ _) as [[[i|]|e] q]; simpl; lia.
    - unfold on_remove_car; destruct (String.eqb (py_strip text) ""); [simpl; lia|].
      destruct (remove_by_car_id _ _) as [[[r|]|e] q]; simpl; lia.
    - unfold on_set_size; destruct (n <? 1)%Z; [simpl; lia|].
      destruct (set_size _ _) as [[u|e] q]; simpl; lia.
    - simpl; lia.
    - simpl; lia.
    - simpl; lia. }
  rewrite Hstep; destruct ev as [text now| | | | | |]; simpl; try lia.
  destruct (String.eqb (py_strip text) ""); simpl; lia.
Qed.

(** ** The dashboard and the markers *)



(** ** Stripping the entry *)

Lemma lstrip_head l :
  match lstrip_list l with [] => True | c :: _ => py_isspace c = false end.
Proof.
  induction l as [|c l IH]; simpl; [exact I|].
  destruct (py_isspace c) eqn:E; [exact IH | exact E].
Qed.

Lemma lstrip_fixed l :
  match l with [] => True | c :: _ => py_isspace c = false end ->
  lstrip_list l = l.
Proof. destruct l as [|c l]; simpl; [reflexivity|]; intros H; now rewrite H. Qed.

Lemma lstrip_split l : exists p, l = p ++ lstrip_list l.
Proof.
  induction l as [|c l [p Hp]]; simpl; [now exists []|].
  destruct (py_isspace c); [exists (c :: p); simpl; now f_equal | now exists []].
Qed.

Lemma py_strip_idem t : py_strip (py_strip t) = py_strip t.
Proof.
  unfold py_strip; rewrite list_ascii_of_string_of_list_ascii.
  set (l1 := lstrip_list (list_ascii_of_string t)).
  set (r := lstrip_list (rev l1)).
  assert (Hl1 : lstrip_list (rev r) = rev r).
  { apply lstrip_fixed.
    destruct (lstrip_split (rev l1)) as [p Hp]; fold r in Hp.
    pose proof (lstrip_head (list_ascii_of_string t)) as Hh; fold l1 in Hh.
    assert (E : l1 = rev r ++ rev p)
      by (rewrite <- rev_app_distr, <- Hp; symmetry; apply rev_involutive).
    rewrite E in Hh; destruct (rev r) as [|c x]; [exact I | exact Hh]. }
  rewrite Hl1, rev_involutive, lstrip_fixed by apply lstrip_head.
  reflexivity.
Qed.

(** Every handler that reads the car id entry treats it as [str.strip()]
    of its text: an entry with blanks around an id acts exactly as the id
    alone. *)
Theorem entry_is_stripped (text : string) (now : Z) (a : ParkingApp) :
  on_enqueue (py_strip text) now a = on_enqueue text now a /\
  on_search_car (py_strip text) a = on_search_car text a /\
  on_remove_car (py_strip text) a = on_remove_car text a.
Proof.
  unfold on_enqueue, on_search_car, on_remove_car; now rewrite py_strip_idem.
Qed.

(** ** The highlight ring *)

(** After a car is parked, the next drawing puts one green ring, around
    the slot marked "R" where the car went; after a car leaves, one red
    ring, around the new front slot. *)
Theorem highlight_after_action (text : string) (now : Z) (a : ParkingApp) :
  ring_layout (queue a) ->
  (count (queue a) < size (queue a) ->
     let a' := app (on_enqueue text now a) in
     exists views,
       draw_slots (last_action_index a') (last_action_type a') (queue a')
         = (Ok views, queue a') /\
       forall i, i < size (queue a') ->
         highlight (nth i views blank_view) =
         if i =? rear_slot (queue a') then Some "#00b894"%string else None) /\
  (0 < count (queue a) ->
     let a' := app (on_dequeue a) in
     exists views,
       draw_slots (last_action_index a') (last_action_type a') (queue a')
         = (Ok views, queue a') /\
       forall i, i < size (queue a') ->
         highlight (nth i views blank_view) =
         if i =? front (queue a') then Some "#ff7675"%string else None).
Proof.
  intros Hr; pose proof Hr as [Hwf _]; split.
  - intros Hlt; unfold on_enqueue.
    destruct (String.eqb (py_strip text) ""); simpl;
      rewrite enqueue_ok by (first [exact Hwf | exact Hlt]); simpl;
      match goal with |- context [enqueue_post ?v _] =>
        destruct (enqueue_post_rear v (queue a) Hwf Hlt) as [R1 _];
        pose proof (wf_enqueue_post v (queue a) Hwf Hlt) as Hwf' end;
      (eexists; split; [apply draw_slots_ok, Hwf'|]);
      intros i Hi; rewrite nth_map_seq0 by exact Hi; simpl; now rewrite R1.
  - intros Hpos; destruct (ring_front_occupied _ Hr Hpos) as [car Hcar].
    unfold on_dequeue; rewrite dequeue_ok by assumption; rewrite Hcar; simpl.
    pose proof (wf_dequeue_post (queue a) Hwf Hpos) as Hwf'.
    eexists; split; [apply draw_slots_ok, Hwf'|].
    intros i Hi; rewrite nth_map_seq0 by exact Hi; reflexivity.
Qed.

Lemma highlight_after_action_witness :
  exists views,
    draw_slots (Some 2) (Some "dequeue"%string) (dequeue_post sample_queue)
      = (Ok views, dequeue_post sample_queue) /\
    highlight (nth 2 views blank_view) = Some "#ff7675"%string.
Proof.
  destruct (proj2 (highlight_after_action "" 0 (mk_app sample_queue 1 None None)
                     ltac:(split; [unfold wf; simpl; lia | reflexivity]))
                  ltac:(simpl; lia)) as (views & Hv & Hh).
  exists views; split; [exact Hv|].
  rewrite (Hh 2) by (simpl; lia); reflexivity.
Defined.
